(** * go-restli: the code generator's naming, merging and reading routines

    A shallow embedding of
    - [internal/codegen/identifier.go] (identifiers, package paths, the
      primitive catalog),
    - [codegen/codefile.go] (code files, their deduplication, the aggregate
      imports file, the comment-tolerant JSON reader),
    - [codegen/schema/collection.go] (the generated [Get] of a collection),
    - [ResourceParser.java] (the resource walk of the Java front end),
    followed by the properties of these routines.

    Go strings and byte slices are [string]s (a list of bytes); a Go map with
    string keys is a [gmap string _]; a panic and a [log.Fatalf] are explicit
    results. *)

From Stdlib Require Import Ascii String Bool Arith Lia.
From stdpp Require Import gmap strings list sorting.

Local Open Scope stdpp_scope.

(** ** The ways a Go call can end *)

Inductive outcome (A : Type) : Type :=
| Return (a : A)          (* the function returns *)
| Panic (msg : string)    (* [panic], [log.Panic*], a failed index *)
| Fatal (msg : string).   (* [log.Fatal*]: the process exits *)
Arguments Return {A} a.
Arguments Panic {A} msg.
Arguments Fatal {A} msg.

(** ** Strings: the pieces of [strings], [bytes] and [path/filepath] in use *)

Module Strings.

(** [strings.HasPrefix] together with the remainder: [Some rest] when
    [s = prefix ++ rest]. *)
Fixpoint TrimPrefix (prefix s : string) : option string :=
  match prefix, s with
  | EmptyString, _ => Some s
  | String p prefix', String c s' =>
      if decide (p = c) then TrimPrefix prefix' s' else None
  | String _ _, EmptyString => None
  end.

(** [strings.Replace(s, old, new, -1)] for a one-byte [old] and [new]. *)
Fixpoint ReplaceByte (old new : ascii) (s : string) : string :=
  match s with
  | EmptyString => EmptyString
  | String c s' =>
      String (if decide (c = old) then new else c) (ReplaceByte old new s')
  end.

(** [strings.Join]. *)
Fixpoint Join (elems : list string) (sep : string) : string :=
  match elems with
  | [] => ""
  | [e] => e
  | e :: rest => e +:+ sep +:+ Join rest sep
  end.

(** [strings.FieldsFunc] keeping the empty fields: the pieces of [s] between
    the bytes that [isSep] accepts. There is always at least one piece. *)
Fixpoint SplitOn (isSep : ascii → bool) (s : string) : list string :=
  match s with
  | EmptyString => [""]
  | String c s' =>
      if isSep c then "" :: SplitOn isSep s'
      else match SplitOn isSep s' with
           | piece :: pieces => String c piece :: pieces
           | [] => [String c ""]
           end
  end.

(** A string without separators is one piece. *)
Definition free (isSep : ascii → bool) (w : string) : Prop :=
  SplitOn isSep w = [w].

(** [bytes.Index(s, sep)]: the offset of the first [sep] in [s]. *)
Fixpoint Index (s sep : string) : option nat :=
  match TrimPrefix sep s with
  | Some _ => Some 0
  | None =>
      match s with
      | EmptyString => None
      | String _ s' => S <$> Index s' sep
      end
  end.

(** [s[i]], which panics out of range: [None]. *)
Fixpoint At (s : string) (i : nat) : option ascii :=
  match s, i with
  | EmptyString, _ => None
  | String c _, 0 => Some c
  | String _ s', S i' => At s' i'
  end.

(** [s[:n]] and [s[n:]] for [n <= len(s)]. *)
Fixpoint SliceTo (n : nat) (s : string) : string :=
  match n, s with
  | S n', String c s' => String c (SliceTo n' s')
  | _, _ => ""
  end.
Fixpoint SliceFrom (n : nat) (s : string) : string :=
  match n, s with
  | S n', String _ s' => SliceFrom n' s'
  | _, _ => s
  end.

End Strings.

(** [path/filepath] on a Unix system, after the rules its documentation
    gives for [Clean]: empty and [.] elements go, [..] removes the element
    before it, a rooted path keeps its root, the empty result is [.]. *)
Module Filepath.

Definition isSlash (c : ascii) : bool := bool_decide (c = "/"%char).

Definition cleanStep (rooted : bool) (kept : list string) (elem : string)
  : list string :=
  if decide (elem = "" ∨ elem = ".") then kept
  else if decide (elem = "..") then
    match kept with
    | top :: below =>
        if decide (top = "..") then ".." :: kept else below
    | [] => if rooted then [] else [".."]
    end
  else elem :: kept.

Definition Clean (path : string) : string :=
  match path with
  | EmptyString => "."
  | String c _ =>
      let rooted := isSlash c in
      let kept := foldl (cleanStep rooted) [] (Strings.SplitOn isSlash path) in
      let body := Strings.Join (rev kept) "/" in
      if rooted then "/" +:+ body
      else if decide (body = "") then "." else body
  end.

(** A path element that [Clean] keeps where it is: a name. *)
Definition proper (elem : string) : Prop :=
  elem ≠ "" ∧ elem ≠ "." ∧ elem ≠ "..".

(** [filepath.Join]: the elements from the first non-empty one on, joined
    by the separator and cleaned; the empty string when there is none. *)
Fixpoint Join (elem : list string) : string :=
  match elem with
  | [] => ""
  | e :: rest =>
      if decide (e = "") then Join rest
      else Clean (Strings.Join elem "/")
  end.

End Filepath.

(** ** The regular expression of [identifier.go]

    [namespaceEscape = regexp.MustCompile("([/.])_?internal([/.]?)")] is the
    one expression of the package; it is matched the way Go's [regexp] does
    (leftmost match, greedy [?] with backtracking) and used through
    [ReplaceAllString] only. *)
Module Regexp.

(** The class [[/.]]. *)
Definition isDelim (c : ascii) : bool :=
  bool_decide (c = "/"%char) || bool_decide (c = "."%char).

(** The submatches of one match: group 1, group 2, and the text after the
    match. *)
Record submatch := Submatch { group1 : string; group2 : string; after : string }.

(** [_?internal]: the underscore is tried first and given up when [internal]
    does not follow it. *)
Definition matchInternal (s : string) : option string :=
  match s with
  | String "_" s' =>
      match Strings.TrimPrefix "internal" s' with
      | Some rest => Some rest
      | None => Strings.TrimPrefix "internal" s
      end
  | _ => Strings.TrimPrefix "internal" s
  end.

(** [([/.]?)]: one delimiter when there is one, the empty string otherwise. *)
Definition matchOptDelim (s : string) : string * string :=
  match s with
  | String d s' => if isDelim d then (String d "", s') else ("", s)
  | EmptyString => ("", s)
  end.

(** A match of [namespaceEscape] that starts at the first byte of [s]. *)
Definition namespaceEscape_matchAt (s : string) : option submatch :=
  match s with
  | String c s1 =>
      if isDelim c then
        match matchInternal s1 with
        | Some s2 =>
            let '(g2, rest) := matchOptDelim s2 in
            Some (Submatch (String c "") g2 rest)
        | None => None
        end
      else None
  | EmptyString => None
  end.

(** The template ["${1}_internal${2}"]. *)
Definition expand (m : submatch) : string :=
  group1 m +:+ "_internal" +:+ group2 m.

(** [namespaceEscape.ReplaceAllString(src, "${1}_internal${2}")]: the source
    is scanned from the left; a match is replaced by the expanded template and
    the scan goes on after the match, so that matches never overlap; a byte
    where no match starts is copied. Every step consumes a byte, so
    [length src] steps are enough. *)
Fixpoint replaceAll (steps : nat) (src : string) : string :=
  match steps with
  | 0 => src
  | S steps' =>
      match namespaceEscape_matchAt src with
      | Some m => expand m +:+ replaceAll steps' (after m)
      | None =>
          match src with
          | String c src' => String c (replaceAll steps' src')
          | EmptyString => ""
          end
      end
  end.

Definition namespaceEscape_ReplaceAllString (src : string) : string :=
  replaceAll (String.length src) src.

(** What the replacement does to one segment of a class path: nothing, or an
    underscore in front of a segment that starts with [internal]. *)
Definition escaped (a b : string) : Prop :=
  b = a ∨ (b = "_" +:+ a ∧ ∃ t, a = "internal" +:+ t).

End Regexp.

(** ** [internal/codegen/identifier.go] *)
Module Identifier.

Record Identifier := { Name : string; Namespace : string }.

#[global] Instance Identifier_eq_dec : EqDecision Identifier.
Proof. solve_decision. Defined.

(** The package state the functions read: the [PackagePrefix] variable and the
    cyclic identifiers the [TypeRegistry] has found ([TypeRegistry.IsCyclic]). *)
Record Globals := {
  PackagePrefix : string;
  IsCyclic : Identifier → bool
}.

Definition GetQualifiedClasspath (i : Identifier) : string :=
  Namespace i +:+ "." +:+ Name i.

(** [fmt.Sprintf("%+v", i)]: [Identifier] has the method [String], which
    [fmt] calls for this verb, and [String] is [GetQualifiedClasspath]. *)
Definition formatIdentifier (i : Identifier) : string :=
  GetQualifiedClasspath i.

Definition FqcpToPackagePath (g : Globals) (fqcp : string) : string :=
  let fqcp :=
    Strings.ReplaceByte "."%char "/"%char
      (Regexp.namespaceEscape_ReplaceAllString fqcp) in
  if decide (PackagePrefix g ≠ "") then Filepath.Join [PackagePrefix g; fqcp]
  else fqcp.

Definition PackagePath (g : Globals) (i : Identifier) : outcome string :=
  if decide (Namespace i = "") then
    Panic (formatIdentifier i +:+ " has no namespace!")
  else if decide (Name i = "") then
    Panic (formatIdentifier i +:+ " has no name!")
  else
    let p := if IsCyclic g i then "conflictResolution" else Namespace i in
    Return (FqcpToPackagePath g p).

End Identifier.


(** ** The primitive catalog ([PrimitiveType], [PrimitiveTypes]) *)
Module Primitive.

(** What [newInstance] allocates: [new(int32)], ..., [new([]byte)]. *)
Inductive GoType := GoInt32 | GoInt64 | GoFloat32 | GoFloat64 | GoBool | GoString | GoBytes.

#[global] Instance GoType_eq_dec : EqDecision GoType.
Proof. solve_decision. Defined.

(** [Type_] is the field [Type]; [newInstance] is [None] in the zero value. *)
Record PrimitiveType := { Type_ : string; newInstance : option GoType }.

#[global] Instance PrimitiveType_eq_dec : EqDecision PrimitiveType.
Proof. solve_decision. Defined.

Definition PrimitiveTypes : list PrimitiveType := [
  {| Type_ := "int32"; newInstance := Some GoInt32 |};
  {| Type_ := "int64"; newInstance := Some GoInt64 |};
  {| Type_ := "float32"; newInstance := Some GoFloat32 |};
  {| Type_ := "float64"; newInstance := Some GoFloat64 |};
  {| Type_ := "bool"; newInstance := Some GoBool |};
  {| Type_ := "string"; newInstance := Some GoString |};
  {| Type_ := "bytes"; newInstance := Some GoBytes |}
].

(** The loop [for _, pt := range PrimitiveTypes] of [UnmarshalJSON], which
    returns at the first entry of that name. *)
Fixpoint findPrimitive (primitiveType : string) (pts : list PrimitiveType)
  : option PrimitiveType :=
  match pts with
  | [] => None
  | pt :: pts' =>
      if decide (primitiveType = Type_ pt) then Some pt
      else findPrimitive primitiveType pts'
  end.

Section UnmarshalJSON.

(** [json.Unmarshal(data, &primitiveType)] for a [string] target, of the Go
    library: the decoded string, or the error. *)
Variable json_Unmarshal : string → string + string.

(** [(p *PrimitiveType) UnmarshalJSON(data)]: the receiver afterwards and the
    error ([None] is [nil]). *)
Definition UnmarshalJSON (p : PrimitiveType) (data : string)
  : PrimitiveType * option string :=
  match json_Unmarshal data with
  | inr err => (p, Some err)
  | inl primitiveType =>
      match findPrimitive primitiveType PrimitiveTypes with
      | Some pt => (pt, None)
      | None => (p, Some ("Unknown type: " +:+ primitiveType))
      end
  end.

End UnmarshalJSON.

End Primitive.

(** ** [codegen/codefile.go] *)
Module Codefile.

Definition newline : string := String "010"%char "".

(** A file of [jen], as far as [GenerateAllImportsFile] builds one: the
    package name, the paths imported anonymously ([File.Anon]) and the
    functions declared, each with the qualified types of its parameters. *)
Record FuncDecl := {
  FuncName : string;
  FuncParams : list (string * string * string)  (* operator, package, name *)
}.
Record File := {
  FileName : string;
  Anons : gset string;
  Decls : list FuncDecl
}.
Definition NewFile (name : string) : File :=
  {| FileName := name; Anons := ∅; Decls := [] |}.
Definition Anon (p : string) (f : File) : File :=
  {| FileName := FileName f; Anons := {[ p ]} ∪ Anons f; Decls := Decls f |}.
Definition AddFunc (d : FuncDecl) (f : File) : File :=
  {| FileName := FileName f; Anons := Anons f; Decls := Decls f ++ [d] |}.

(** The packages that the functions of a file name through [Qual]; [jen]
    imports each of them when it renders the file. *)
Definition Quals (f : File) : gset string :=
  list_to_set (flat_map (λ d, (λ param, param.1.2) <$> FuncParams d) (Decls f)).

(** The import paths of the rendered file: the anonymous imports and the
    packages of the qualified names. *)
Definition Imports (f : File) : gset string := Anons f ∪ Quals f.

(** The errors [ReadJSONFromFile] returns. *)
Inductive error :=
| SyntaxError (Offset : Z) (msg : string)
| MalformedPdscFileError (Filename : string) (Offset : Z) (msg : string)
| OtherError (msg : string).

(** One turn of the loop of [ReadJSONFromFile]. *)
Inductive iteration :=
| Returns (err : option error)
| Continue (data : string)
| IndexOutOfRange.

(** [data[i]] for an [int] index. *)
Definition index (data : string) (i : Z) : option ascii :=
  if decide (i < 0)%Z then None else Strings.At data (Z.to_nat i).

(** The order in which [for k := range m] visits the keys of a map: the Go
    runtime picks one, and not the same one each time; every key is visited
    once. *)
Record Range := {
  visit : ∀ V : Type, gmap string V → list string;
  visit_keys : ∀ (V : Type) (m : gmap string V), visit V m ≡ₚ (map_to_list m).*1
}.

(** One such order. *)
Definition inMapOrder : Range :=
  {| visit := λ V m, (map_to_list m).*1; visit_keys := λ V m, Permutation_refl _ |}.

(** And the same order backwards. *)
Definition inReverseOrder : Range :=
  {| visit := λ V m, reverse (map_to_list m).*1;
     visit_keys := λ V m, reverse_Permutation _ |}.

Section WithEnvironment.

(** [*jen.Statement] and its [Render]: the rendered bytes, or the error. *)
Variable Statement : Type.
Variable Render : Statement → string + string.

(** The visiting order of this run. *)
Variable range : Range.

(** The package variable. *)
Variable PackagePrefix : string.

(** [ioutil.ReadFile] and [json.Unmarshal(data, s)]: [None] is [nil]; a
    [*json.SyntaxError] is [SyntaxError], every other error [OtherError]. *)
Variable ReadFile : string → string + string.
Variable Unmarshal : string → option error.

Record CodeFile := {
  SourceFilename : string;
  PackagePath : string;
  Filename : string;
  Code : Statement
}.

Definition Identifier (f : CodeFile) : string :=
  PackagePath f +:+ "." +:+ Filename f.

Definition conflictMessage (id existingCode code : string) : string :=
  "Conflicting defitions of " +:+ id +:+ ": " +:+ existingCode
    +:+ newline +:+ newline +:+ "-----------" +:+ newline +:+ newline +:+ code.

(** The first loop of [DeduplicateFiles]: [idToFile] after the files. *)
Fixpoint collect (idToFile : gmap string CodeFile) (files : list CodeFile)
  : outcome (gmap string CodeFile) :=
  match files with
  | [] => Return idToFile
  | file :: files' =>
      let id := Identifier file in
      match idToFile !! id with
      | Some existingFile =>
          match Render (Code existingFile) with
          | inr err => Panic err
          | inl existingCode =>
              match Render (Code file) with
              | inr err => Panic err
              | inl code =>
                  if decide (existingCode = code) then collect idToFile files'
                  else Fatal (conflictMessage id existingCode code)
              end
          end
      | None => collect (<[id := file]> idToFile) files'
      end
  end.

(** [sort.Strings]: increasing byte order. *)
Definition sort_Strings (l : list string) : list string :=
  merge_sort String.le l.

Definition DeduplicateFiles (files : list CodeFile) : outcome (list CodeFile) :=
  match collect ∅ files with
  | Return idToFile =>
      let identifiers := sort_Strings (visit range CodeFile idToFile) in
      Return (omap (λ id, idToFile !! id) identifiers)
  | Panic msg => Panic msg
  | Fatal msg => Fatal msg
  end.

(** [GenerateAllImportsFile]: the name and the content handed to [Write]. *)
Definition GenerateAllImportsFile (outputDir : string) (codeFiles : list CodeFile)
  : string * File :=
  let imports : gmap string bool :=
    foldl (λ imports code, <[PackagePath code := true]> imports) ∅ codeFiles in
  let f := foldl (λ f p, Anon p f) (NewFile "main") (visit range bool imports) in
  let f := AddFunc {| FuncName := "TestAllImports";
                      FuncParams := [("*", "testing", "T")] |} f in
  (Filepath.Join [outputDir; PackagePrefix; "all_imports_test.go"], f).

(** The body of the [for] loop of [ReadJSONFromFile]. *)
Definition iterate (filename data : string) : iteration :=
  match Unmarshal data with
  | Some (SyntaxError Offset msg) =>
      if decide (Offset = 0)%Z then Returns (Some (SyntaxError Offset msg))
      else
        let offset := (Offset - 1)%Z in
        match index data offset with
        | None => IndexOutOfRange
        | Some c =>
            if decide (c = "/"%char) then
              match index data (offset + 1) with
              | None => IndexOutOfRange
              | Some c1 =>
                  let malformed :=
                    Returns (Some (MalformedPdscFileError filename Offset msg)) in
                  let strip (endOfComment : string) :=
                    match Strings.Index (Strings.SliceFrom (Z.to_nat offset) data)
                            endOfComment with
                    | None => malformed
                    | Some eol =>
                        Continue
                          (Strings.SliceTo (Z.to_nat offset) data +:+
                           Strings.SliceFrom (Z.to_nat offset + eol
                                         + String.length endOfComment) data)
                    end in
                  if decide (c1 = "/"%char) then strip newline
                  else if decide (c1 = "*"%char) then strip "*/"
                  else malformed
              end
            else Returns (Some (SyntaxError Offset msg))
        end
  | err => Returns err
  end.

(** The loop, for at most [turns] turns: [None] when they are used up. *)
Fixpoint readLoop (turns : nat) (filename data : string)
  : option (outcome (string * option error)) :=
  match turns with
  | 0 => None
  | S turns' =>
      match iterate filename data with
      | Returns err => Some (Return (data, err))
      | IndexOutOfRange => Some (Panic "runtime error: index out of range")
      | Continue data' => readLoop turns' filename data'
      end
  end.

(** [ReadJSONFromFile]: the bytes that were handed to the decoder last and
    the error. The loop is given one turn more than the file has bytes. *)
Definition ReadJSONFromFile (filename : string)
  : option (outcome (string * option error)) :=
  match ReadFile filename with
  | inr err => Some (Return ("", Some (OtherError err)))
  | inl data => readLoop (S (String.length data)) filename data
  end.

(** A file name without a dot. *)
Definition dotFree (name : string) : Prop :=
  Strings.free (λ c, bool_decide (c = "."%char)) name.

(** Two files whose code renders, and to the same bytes. *)
Definition sameCode (f g : CodeFile) : Prop :=
  ∃ code, Render (Code f) = inl code ∧ Render (Code g) = inl code.

(** Files of which any two with the same identifier have the same code. *)
Definition consistent (files : list CodeFile) : Prop :=
  ∀ i j f g, i < j → files !! i = Some f → files !! j = Some g →
             Identifier f = Identifier g → sameCode f g.

(** Two files of one identifier, the first before the second, whose code
    renders to different bytes. *)
Definition conflict (files : list CodeFile) (id existingCode code : string) : Prop :=
  ∃ i j f g, i < j ∧ files !! i = Some f ∧ files !! j = Some g ∧
             Identifier f = id ∧ Identifier g = id ∧
             Render (Code f) = inl existingCode ∧ Render (Code g) = inl code ∧
             existingCode ≠ code.

(** The key of the specification: the package path and the file name, as
    a pair. *)
Definition sameKey (f g : CodeFile) : Prop :=
  PackagePath f = PackagePath g ∧ Filename f = Filename g.

#[global] Instance sameKey_dec f g : Decision (sameKey f g).
Proof. unfold sameKey. apply _. Defined.

(** A list that holds exactly one file for the key of every file. *)
Definition keepsOnePerKey (files out : list CodeFile) : Prop :=
  ∀ f, f ∈ files → ∃ u, filter (λ x, sameKey x f) out = [u].

(** A file that imports the package paths of the code files and no other
    path. *)
Definition importsThePackagePaths (codeFiles : list CodeFile) (file : File) : Prop :=
  ∀ p, p ∈ Imports file ↔ ∃ code, code ∈ codeFiles ∧ PackagePath code = p.

(** The first file of every identifier. *)
Definition firsts (files : list CodeFile) : gmap string CodeFile :=
  foldr (λ f m, <[Identifier f := f]> m) ∅ files.

(** The list [DeduplicateFiles] builds from the first files. *)
Definition output (files : list CodeFile) : list CodeFile :=
  omap (λ id, firsts files !! id)
    (sort_Strings (visit range CodeFile (firsts files))).

(** The results of a turn that end the loop with success, with a syntax
    error at offset zero, or with a malformed-file error. *)
Definition listed (err : option error) : Prop :=
  err = None ∨ (∃ msg, err = Some (SyntaxError 0 msg)) ∨
  (∃ name offset msg, err = Some (MalformedPdscFileError name offset msg)).

(** A turn that returns one of the [listed] results or goes on with less
    data. *)
Definition returnsListedOrShrinks (filename data : string) : Prop :=
  match iterate filename data with
  | Returns err => listed err
  | Continue data' => String.length data' < String.length data
  | IndexOutOfRange => False
  end.

End WithEnvironment.

Arguments SourceFilename {Statement} _.
Arguments PackagePath {Statement} _.
Arguments Filename {Statement} _.
Arguments Code {Statement} _.
Arguments Identifier {Statement} _.
Arguments collect {Statement} Render idToFile files.
Arguments DeduplicateFiles {Statement} Render range files.
Arguments GenerateAllImportsFile {Statement} range PackagePrefix outputDir codeFiles.
Arguments sameCode {Statement} Render f g.
Arguments consistent {Statement} Render files.
Arguments sameKey {Statement} f g.
Arguments keepsOnePerKey {Statement} files out.
Arguments importsThePackagePaths {Statement} codeFiles file.
Arguments conflict {Statement} Render files id existingCode code.
Arguments firsts {Statement} files.
Arguments output {Statement} range files.

End Codefile.

(** ** [codegen/schema/collection.go] *)
Module Schema.

(** Modelled from the spec: the type [Resource] and its method
    [getIdentifier] are not among the sources. After the data model (a
    resource of an ancestor chain contributes one path segment and, when it is
    a keyed collection, one entity identifier) a resource is its path segment
    [Path] and the identifier of its entities, if it has one. *)
Record ResourceIdentifier := { IdName : string }.
Record Resource := {
  Path : string;
  getIdentifier : option ResourceIdentifier
}.

(** The placeholder of [fmt.Sprintf] that stands for an entity identifier. *)
Definition placeholder : string := "%s".

(** Modelled from the spec: the function [buildQueryPath] is not among the
    sources. After the contract of the method compiler (an ordered
    path-segment template, literal segments interleaved with
    entity-identifier placeholders, one per ancestor that is itself a keyed
    collection, outermost ancestor first) it writes, for the chain
    [resources] that ends with the resource itself, the segment of every
    ancestor followed by a placeholder when the ancestor is keyed, and then
    the path of the resource. *)
Fixpoint buildQueryPath (resources : list Resource) (rawQueryPath : string)
  : string :=
  match resources with
  | [] | [_] => rawQueryPath
  | ancestor :: resources' =>
      Path ancestor +:+ "/" +:+
      match getIdentifier ancestor with
      | Some _ => placeholder +:+ "/"
      | None => ""
      end +:+
      buildQueryPath resources' rawQueryPath
  end.

(** What [generateGet] puts into the generated function to build the URL: the
    literal format handed to [fmt.Sprintf] and the identifiers that follow
    it as arguments. *)
Record SprintfCall := { Format : string; Args : list string }.

(** [generateGet], its call of [fmt.Sprintf]: the format is [queryPath], the
    arguments are [id.Name + "Str"] for the resources of the chain that have
    an identifier. *)
Definition generateGet (parentResources : list Resource) (thisResource : Resource)
  : SprintfCall :=
  let resources := parentResources ++ [thisResource] in
  let queryPath := buildQueryPath resources (Path thisResource) +:+ "/%s" in
  {| Format := queryPath;
     Args := omap (λ r, (λ id, IdName id +:+ "Str") <$> getIdentifier r) resources |}.

(** The elements of the path that a resource of the chain stands for: its
    segment, and a placeholder when it is keyed. *)
Definition pathElements (r : Resource) : list string :=
  Path r :: match getIdentifier r with
            | Some _ => [placeholder]
            | None => []
            end.

End Schema.

(** ** [ResourceParser.java] *)
Module ResourceParser.

(** The records of the restspec that [parse] reads. A list that may be
    [null] in Java and is read through [Utils.emptyIfNull] is a list here,
    empty for [null]. *)
Record IdentifierSchema := {
  idName : string;
  idType : string;
  params : option string      (* [hasParams()] is [params ≠ None] *)
}.
Record ActionSchema := { actionName : string }.
Record FinderSchema := { finderName : string }.

Inductive ResourceSchema :=
| MkResourceSchema
    (name namespace doc : string)
    (schema : option string)
    (actionsSet : option (list ActionSchema))
    (simple : option SimpleSchema)
    (collection : option CollectionSchema)
with SimpleSchema :=
| MkSimpleSchema
    (supports : list string)
    (actions : list ActionSchema)
    (subresources : list ResourceSchema)
with CollectionSchema :=
| MkCollectionSchema
    (identifier : IdentifierSchema)
    (supports : list string)
    (finders : list FinderSchema)
    (actions entityActions : list ActionSchema)
    (subresources : list ResourceSchema).

Definition getName (s : ResourceSchema) : string :=
  let 'MkResourceSchema name _ _ _ _ _ _ := s in name.
Definition getNamespace (s : ResourceSchema) : string :=
  let 'MkResourceSchema _ namespace _ _ _ _ _ := s in namespace.
Definition getCollection (s : ResourceSchema) : option CollectionSchema :=
  let 'MkResourceSchema _ _ _ _ _ _ collection := s in collection.
Definition getSimple (s : ResourceSchema) : option SimpleSchema :=
  let 'MkResourceSchema _ _ _ _ _ simple _ := s in simple.
Definition getIdentifier (c : CollectionSchema) : IdentifierSchema :=
  let 'MkCollectionSchema identifier _ _ _ _ _ := c in identifier.
Definition collectionSubresources (c : CollectionSchema) : list ResourceSchema :=
  let 'MkCollectionSchema _ _ _ _ _ subresources := c in subresources.
Definition simpleSubresources (s : SimpleSchema) : list ResourceSchema :=
  let 'MkSimpleSchema _ _ subresources := s in subresources.

(** What the parser hands on. The classes [PathKey], [Method] and [Resource]
    and the [MethodParser] are not among the sources: a path key keeps the
    name and type of the identifier it is made for, a method what it is made
    from, a resource the arguments of its constructor and its methods. *)
Record PathKey := { pkName : string; pkType : string }.
Inductive Method :=
| RestMethod (pathKeys : list PathKey) (restMethod : string)
| ActionMethod (pathKeys : list PathKey) (action : ActionSchema) (onEntity : bool)
| FinderMethod (pathKeys : list PathKey) (finder : FinderSchema).
Record Resource := {
  resName : string;
  resDoc : string;
  resFilename : string;
  resRoot : string;
  resType : option string;
  resMethods : list Method
}.

Definition forCollection (c : CollectionSchema) : PathKey :=
  {| pkName := idName (getIdentifier c); pkType := idType (getIdentifier c) |}.

(** [_schema.hasCollection() && _schema.getCollection().getIdentifier().hasParams()] *)
Definition hasComplexKey (s : ResourceSchema) : bool :=
  match getCollection s with
  | Some c => bool_decide (params (getIdentifier c) ≠ None)
  | None => false
  end.

(** [String.format("%s", list)] of Java. *)
Definition formatList (l : list string) : string :=
  "[" +:+ Strings.Join l ", " +:+ "]".

(** The line that [Utils.log] writes for a skipped resource. *)
Definition skipMessage (namespaceChain : list string) : string :=
  "Complex Key resources are not supported. Skipping "
    +:+ formatList namespaceChain +:+ " and its children." +:+ Codefile.newline.

(** The loops [for (ResourceSchema subResource : ...)] of [parse]: every
    sub-resource is parsed by a parser of its own, and what the parsers
    return is added up in the order of the sub-resources. *)
Definition parseEach (parseSub : ResourceSchema → list Resource * list string)
    (subresources : list ResourceSchema) : list Resource * list string :=
  foldr (λ sub rest, let r := parseSub sub in (r.1 ++ rest.1, r.2 ++ rest.2))
    ([], []) subresources.

(** [parse()] of the parser made for [s] with the chain and the path keys
    that its constructor is given ([_namespaceChain] is the chain it is given
    with the name of [s] appended): the resources returned, a set in Java,
    and the lines logged. *)
Fixpoint parse (resourceFilename rootResourceName : string)
    (namespaceChain : list string) (pathKeys : list PathKey)
    (s : ResourceSchema) {struct s} : list Resource * list string :=
  let 'MkResourceSchema name _ doc schema actionsSet simple collection := s in
  let _namespaceChain := namespaceChain ++ [name] in
  if hasComplexKey s then ([], [skipMessage _namespaceChain])
  else
    let addActions (actions : list ActionSchema) (onEntity : bool) :=
      (λ a, ActionMethod pathKeys a onEntity) <$> actions in
    let addRestMethods (restMethods : list string) :=
      RestMethod pathKeys <$> restMethods in
    let subParser (pks : list PathKey) :=
      parse resourceFilename rootResourceName _namespaceChain pks in
    let m1 := match actionsSet with
              | Some actions => addActions actions false
              | None => []
              end in
    let '(m2, sub2) :=
      match simple with
      | Some (MkSimpleSchema supports actions subresources) =>
          (addActions actions false ++ addRestMethods supports,
           parseEach (subParser pathKeys) subresources)
      | None => ([], ([], []))
      end in
    let '(m3, sub3) :=
      match collection with
      | Some (MkCollectionSchema identifier supports finders actions entityActions
                subresources as c) =>
          (addActions actions false ++ addActions entityActions true
             ++ addRestMethods supports ++ (FinderMethod pathKeys <$> finders),
           parseEach (subParser (pathKeys ++ [forCollection c])) subresources)
      | None => ([], ([], []))
      end in
    let resource :=
      {| resName := Strings.Join _namespaceChain ".";
         resDoc := doc;
         resFilename := resourceFilename;
         resRoot := rootResourceName;
         resType := schema;
         resMethods := m1 ++ m2 ++ m3 |} in
    (resource :: sub2.1 ++ sub3.1, sub2.2 ++ sub3.2).

(** [new ResourceParser(schema, resourceFilename, typeParser).parse()] *)
Definition parseRoot (resourceFilename : string) (s : ResourceSchema)
  : list Resource * list string :=
  parse resourceFilename (getName s) [getNamespace s] [] s.

(** The parsers that [parse] makes for the sub-resources of [s]: the path
    keys each is given, and its schema; those of the simple entity first. *)
Definition subParsers (pathKeys : list PathKey) (s : ResourceSchema)
  : list (list PathKey * ResourceSchema) :=
  match getSimple s with
  | Some simple => (λ sub, (pathKeys, sub)) <$> simpleSubresources simple
  | None => []
  end ++
  match getCollection s with
  | Some c => (λ sub, (pathKeys ++ [forCollection c], sub)) <$> collectionSubresources c
  | None => []
  end.

End ResourceParser.

(** ** More of the sources *)

(** Running one call after another: a panic or a fatal error ends the run. *)
Definition andThen {A B : Type} (x : outcome A) (f : A → outcome B) : outcome B :=
  match x with
  | Return a => f a
  | Panic msg => Panic msg
  | Fatal msg => Fatal msg
  end.

(** ** [codegen/codefile.go]: the names of identifiers and the field tags *)
Module Naming.

Definition isASCII (c : ascii) : bool := bool_decide (N_of_ascii c < 128)%N.
Definition isLower (c : ascii) : bool :=
  bool_decide (97 ≤ N_of_ascii c)%N && bool_decide (N_of_ascii c ≤ 122)%N.
Definition isUpper (c : ascii) : bool :=
  bool_decide (65 ≤ N_of_ascii c)%N && bool_decide (N_of_ascii c ≤ 90)%N.

(** The upper-case and the lower-case form of an ASCII byte. *)
Definition upper (c : ascii) : ascii :=
  if isLower c then ascii_of_N (N_of_ascii c - 32) else c.
Definition lower (c : ascii) : ascii :=
  if isUpper c then ascii_of_N (N_of_ascii c + 32) else c.

Section WithUnicode.

(** [strings.ToUpper] and [strings.ToLower] on the one-byte string of a byte
    that is not ASCII (no character by itself): what the Go library makes of
    it. *)
Variable upperInvalid lowerInvalid : ascii → string.

(** [strings.ToUpper(s)] and [strings.ToLower(s)] for a string of one byte. *)
Definition ToUpper1 (c : ascii) : string :=
  if isASCII c then String (upper c) "" else upperInvalid c.
Definition ToLower1 (c : ascii) : string :=
  if isASCII c then String (lower c) "" else lowerInvalid c.

(** [identifier[:1]] and [identifier[1:]] panic on the empty string. *)
Definition sliceError : string := "runtime error: slice bounds out of range".

Definition ExportedIdentifier (identifier : string) : outcome string :=
  match identifier with
  | String c rest => Return (ToUpper1 c +:+ rest)
  | EmptyString => Panic sliceError
  end.

Definition PrivateIdentifier (identifier : string) : outcome string :=
  match identifier with
  | String c rest => Return (ToLower1 c +:+ rest)
  | EmptyString => Panic sliceError
  end.

Definition ReceiverName (typeName : string) : outcome string :=
  match typeName with
  | String c _ => PrivateIdentifier (String c "")
  | EmptyString => Panic sliceError
  end.

End WithUnicode.

(** [FieldTag]: the struct [Json] inside it. *)
Record FieldTag := { JsonName : string; JsonOptional : bool }.

Definition ToMap (f : FieldTag) : gmap string string :=
  let tags : gmap string string := ∅ in
  if decide (JsonName f ≠ "") then
    let tags := <["json" := JsonName f]> tags in
    if JsonOptional f then
      <["json" := default "" (tags !! "json") +:+ ",omitempty"]> tags
    else tags
  else tags.

(** A name without a comma. *)
Definition commaFree (name : string) : Prop :=
  Strings.free (λ c, bool_decide (c = ","%char)) name.

End Naming.

(** ** [internal/codegen/identifier.go]: the sets of identifiers *)
Module IdentifierSet.
Import Identifier.

#[global] Instance Identifier_countable : Countable Identifier :=
  inj_countable' (λ i, (Name i, Namespace i))
                 (λ p, {| Name := p.1; Namespace := p.2 |})
                 (λ i, match i with Build_Identifier _ _ => eq_refl end).

(** [type IdentifierSet map[Identifier]bool]. *)
Abbreviation IdentifierSet := (gmap Identifier bool).

(** The order in which [range] visits a set. *)
Record Range := {
  visit : gmap Identifier bool → list Identifier;
  visit_keys : ∀ m : gmap Identifier bool, visit m ≡ₚ (map_to_list m).*1
}.

Definition inMapOrder : Range :=
  {| visit := λ m, (map_to_list m).*1; visit_keys := λ m, Permutation_refl _ |}.
Definition inReverseOrder : Range :=
  {| visit := λ m, reverse (map_to_list m).*1;
     visit_keys := λ m, reverse_Permutation _ |}.

Definition Add (set : IdentifierSet) (id : Identifier) : IdentifierSet :=
  <[id := true]> set.

Definition AddAll (range : Range) (set other : IdentifierSet) : IdentifierSet :=
  foldl (λ set id, <[id := true]> set) set (visit range other).

Definition Remove (set : IdentifierSet) (id : Identifier) : IdentifierSet :=
  delete id set.

(** [set[id]]: [false] for an identifier that is no key. *)
Definition Get (set : IdentifierSet) (id : Identifier) : bool :=
  default false (set !! id).

Definition String_ (range : Range) (set : IdentifierSet) : string :=
  let classes :=
    foldl (λ classes s, classes ++ [GetQualifiedClasspath s]) [] (visit range set) in
  "{" +:+ Strings.Join (Codefile.sort_Strings classes) ", " +:+ "}".

(** A set in which every key stands for a member, as [Add] and [AddAll]
    make them. *)
Definition allTrue (set : IdentifierSet) : Prop :=
  ∀ id b, set !! id = Some b → b = true.

End IdentifierSet.

(** ** [PrimitiveType]: the methods that read the catalog entry *)
Module PrimitiveMethods.
Import Primitive.

Definition IsBytes (p : PrimitiveType) : bool := bool_decide (Type_ p = "bytes").

(** The type that [GoType] and [Cast] name: [protocol.Bytes] and [[]byte] for
    the bytes, the identifier [p.Type] for the others. *)
Inductive goTypeName := ProtocolBytes | ByteSlice | Id (name : string).

Definition GoTypeName (p : PrimitiveType) : goTypeName :=
  if IsBytes p then ProtocolBytes else Id (Type_ p).
Definition CastName (p : PrimitiveType) : goTypeName :=
  if IsBytes p then ByteSlice else Id (Type_ p).

Section WithUnicode.
Variable upperInvalid : ascii → string.

(** The methods of the codec that [encode] and [decode] call:
    ["Encode" + ExportedIdentifier(p.Type)] and
    ["Decode" + ExportedIdentifier(p.Type)]. *)
Definition encodeMethod (p : PrimitiveType) : outcome string :=
  andThen (Naming.ExportedIdentifier upperInvalid (Type_ p))
    (λ name, Return ("Encode" +:+ name)).
Definition decodeMethod (p : PrimitiveType) : outcome string :=
  andThen (Naming.ExportedIdentifier upperInvalid (Type_ p))
    (λ name, Return ("Decode" +:+ name)).

End WithUnicode.

(** [getLit] calls [p.newInstance()], a nil function in the zero value. *)
Definition getLitInstance (p : PrimitiveType) : outcome GoType :=
  match newInstance p with
  | Some t => Return t
  | None => Panic "runtime error: invalid memory address or nil pointer dereference"
  end.

End PrimitiveMethods.

(** ** Words for the segments of a package path *)
Module Segments.

(** A segment that starts with [internal]. *)
Definition startsInternal (segment : string) : Prop :=
  is_Some (Strings.TrimPrefix "internal" segment).

(** Segments of which one that starts with [internal] comes only right
    after a segment [_internal]. *)
Definition afterEscaped (segments : list string) : Prop :=
  ∀ k segment,
    segments !! k = Some segment → startsInternal segment →
    ∃ k', k = S k' ∧ segments !! k' = Some "_internal".

(** The replacement as it acts on the segments after the first: a segment
    that starts with [internal] or [_internal] is written with [_internal] in
    front of what follows, unless the delimiter before it was taken by the
    match of the segment before it, which a segment that is just [internal]
    or [_internal] does. *)
Fixpoint escapeSegments (taken : bool) (segments : list string) : list string :=
  match segments with
  | [] => []
  | segment :: rest =>
      match (if taken then None else Regexp.matchInternal segment) with
      | Some t => ("_internal" +:+ t) :: escapeSegments (bool_decide (t = "")) rest
      | None => segment :: escapeSegments false rest
      end
  end.

End Segments.

(** ** [ResourceParser.java]: the tree of resources under a schema *)
Module ResourceTree.
Import ResourceParser.

(** The path keys a method was made with. *)
Definition methodPathKeys (m : Method) : list PathKey :=
  match m with
  | RestMethod pathKeys _ => pathKeys
  | ActionMethod pathKeys _ _ => pathKeys
  | FinderMethod pathKeys _ => pathKeys
  end.

(** The number of resources of a schema: itself and all sub-resources. *)
Fixpoint nodes (s : ResourceSchema) : nat :=
  let 'MkResourceSchema _ _ _ _ _ simple collection := s in
  S (match simple with
     | Some (MkSimpleSchema _ _ subresources) => sum_list_with nodes subresources
     | None => 0
     end +
     match collection with
     | Some (MkCollectionSchema _ _ _ _ _ subresources) =>
         sum_list_with nodes subresources
     | None => 0
     end).

(** No resource of the schema has a complex key. *)
Fixpoint complexFree (s : ResourceSchema) : bool :=
  negb (hasComplexKey s) &&
  let 'MkResourceSchema _ _ _ _ _ simple collection := s in
  match simple with
  | Some (MkSimpleSchema _ _ subresources) => forallb complexFree subresources
  | None => true
  end &&
  match collection with
  | Some (MkCollectionSchema _ _ _ _ _ subresources) =>
      forallb complexFree subresources
  | None => true
  end.

End ResourceTree.

(** * Properties *)

(** ** Strings *)
Module StringsFacts.
Import Strings.

Lemma append_cons c (a b : string) : String c a +:+ b = String c (a +:+ b).
Proof. reflexivity. Qed.

Lemma append_empty_l (b : string) : "" +:+ b = b.
Proof. reflexivity. Qed.

Lemma append_empty_r (a : string) : a +:+ "" = a.
Proof. induction a as [|c a IH]; [done|]. by rewrite append_cons, IH. Qed.

Lemma append_assoc (a b c : string) : (a +:+ b) +:+ c = a +:+ b +:+ c.
Proof. induction a as [|x a IH]; [done|]. by rewrite !append_cons, IH. Qed.

Lemma append_length (a b : string) :
  String.length (a +:+ b) = String.length a + String.length b.
Proof. induction a as [|x a IH]; [done|]. rewrite append_cons. simpl. by rewrite IH. Qed.

Lemma TrimPrefix_Some prefix s rest :
  TrimPrefix prefix s = Some rest → s = prefix +:+ rest.
Proof.
  revert s. induction prefix as [|p prefix IH]; intros [|c s] H; simplify_eq/=; try done.
  case_decide; [|done]. subst. rewrite append_cons. f_equal. by apply IH.
Qed.

Lemma TrimPrefix_app prefix rest : TrimPrefix prefix (prefix +:+ rest) = Some rest.
Proof.
  induction prefix as [|p prefix IH]; [by destruct rest|].
  rewrite append_cons. simpl. by rewrite decide_True.
Qed.

Lemma SplitOn_nonempty isSep s : SplitOn isSep s ≠ [].
Proof.
  destruct s as [|c s]; simpl; [done|].
  destruct (isSep c); [done|]. by destruct (SplitOn isSep s).
Qed.

(** A separator closes the piece before it. *)
Lemma SplitOn_sep isSep a d b :
  isSep d = true →
  SplitOn isSep (a +:+ String d b) = SplitOn isSep a ++ SplitOn isSep b.
Proof.
  intros Hd. induction a as [|c a IH].
  - rewrite append_empty_l. simpl. by rewrite Hd.
  - rewrite append_cons. simpl. rewrite IH. destruct (isSep c); [done|].
    pose proof (SplitOn_nonempty isSep a). by destruct (SplitOn isSep a).
Qed.

Lemma SplitOn_free_app isSep w s piece pieces :
  free isSep w → SplitOn isSep s = piece :: pieces →
  SplitOn isSep (w +:+ s) = (w +:+ piece) :: pieces.
Proof.
  unfold free. revert piece pieces.
  induction w as [|c w IH]; intros piece pieces Hw Hs; [done|].
  rewrite !append_cons. simpl in *.
  destruct (isSep c); [done|].
  destruct (SplitOn isSep w) as [|p ps] eqn:E; simplify_eq.
  by rewrite (IH piece pieces eq_refl Hs).
Qed.

Lemma Join_cons_cons e e' rest sep :
  Join (e :: e' :: rest) sep = e +:+ sep +:+ Join (e' :: rest) sep.
Proof. reflexivity. Qed.

Lemma Join_snoc l x sep :
  l ≠ [] → Join (l ++ [x]) sep = Join l sep +:+ sep +:+ x.
Proof.
  induction l as [|e l IH]; [done|]. intros _. destruct l as [|e' l]; [done|].
  rewrite <- !app_comm_cons, !Join_cons_cons. rewrite <- app_comm_cons in IH.
  rewrite IH by done. by rewrite !append_assoc.
Qed.

Lemma Join_app_cons l e l' sep :
  l ≠ [] → Join (l ++ e :: l') sep = Join l sep +:+ sep +:+ Join (e :: l') sep.
Proof.
  induction l as [|x l IH]; [done|]. intros _. destruct l as [|x' l]; [done|].
  rewrite <- !app_comm_cons, !Join_cons_cons. rewrite <- app_comm_cons in IH.
  rewrite IH by done. by rewrite !append_assoc.
Qed.

Lemma Join_cons_head c piece pieces sep :
  Join (String c piece :: pieces) sep = String c (Join (piece :: pieces) sep).
Proof. by destruct pieces. Qed.

(** Joining the pieces with the separator gives the string back. *)
Lemma Join_SplitOn d s :
  Join (SplitOn (λ c, bool_decide (c = d)) s) (String d "") = s.
Proof.
  induction s as [|c s IH]; [done|]. simpl. case_bool_decide as Hc.
  - subst c. pose proof (SplitOn_nonempty (λ c, bool_decide (c = d)) s).
    destruct (SplitOn _ s) as [|p ps]; [done|].
    by rewrite Join_cons_cons, IH.
  - pose proof (SplitOn_nonempty (λ c, bool_decide (c = d)) s).
    destruct (SplitOn _ s) as [|p ps]; [done|].
    by rewrite Join_cons_head, IH.
Qed.

(** Two strings with the same pieces are the same string. *)
Lemma SplitOn_inj d a b :
  SplitOn (λ c, bool_decide (c = d)) a = SplitOn (λ c, bool_decide (c = d)) b →
  a = b.
Proof. intros H. by rewrite <- (Join_SplitOn d a), H, Join_SplitOn. Qed.

(** The text before the last separator and the text after it determine each
    other: [a.x = b.y] with no separator in [x] and [y] gives [a = b] and
    [x = y]. *)
Lemma append_sep_inj d a x b y :
  let isSep := λ c, bool_decide (c = d) in
  free isSep x → free isSep y →
  a +:+ String d x = b +:+ String d y → a = b ∧ x = y.
Proof.
  intros isSep Hx Hy Heq.
  assert (Hsplit : SplitOn isSep a ++ [x] = SplitOn isSep b ++ [y]).
  { rewrite <- Hx at 1. rewrite <- Hy at 1.
    rewrite <- !(SplitOn_sep isSep _ d) by (by apply bool_decide_eq_true_2).
    by rewrite Heq. }
  apply app_inj_tail in Hsplit as [Hab ->]. split; [|done].
  by apply (SplitOn_inj d).
Qed.

(** After the dots have become slashes, the pieces between slashes are the
    pieces between the delimiters [.] and [/]. *)
Lemma SplitOn_ReplaceByte s :
  SplitOn Filepath.isSlash (ReplaceByte "."%char "/"%char s)
  = SplitOn Regexp.isDelim s.
Proof.
  induction s as [|c s IH]; simpl; [done|]. rewrite IH.
  unfold Filepath.isSlash, Regexp.isDelim.
  destruct (decide (c = "."%char)) as [->|Hdot]; [done|].
  destruct (decide (c = "/"%char)) as [->|Hslash]; [done|].
  rewrite !bool_decide_eq_false_2 by done. simpl. done.
Qed.

End StringsFacts.

(** ** Clean paths *)
Module FilepathFacts.
Import Strings Filepath StringsFacts.

Lemma foldl_cleanStep_proper rooted kept elems :
  Forall proper elems →
  foldl (cleanStep rooted) kept elems = rev elems ++ kept.
Proof.
  revert kept. induction elems as [|e elems IH]; intros kept Hall; [done|].
  apply Forall_cons in Hall as [(Hne & Hdot & Hdots) Hall]. simpl.
  rewrite IH by done. unfold cleanStep.
  rewrite decide_False by (by intros [?|?]). rewrite decide_False by done.
  by rewrite <- (assoc_L (++)).
Qed.

(** [Clean] leaves a relative path of names as it is. *)
Lemma Clean_proper path :
  Forall proper (SplitOn isSlash path) → Clean path = path.
Proof.
  intros Hall. destruct path as [|c path'].
  { apply Forall_cons in Hall as [(Hne & _) _]. done. }
  assert (Hrooted : isSlash c = false).
  { destruct (isSlash c) eqn:Hc; [|done]. simpl in Hall.
    rewrite Hc in Hall. by apply Forall_cons in Hall as [(Hne & _) _]. }
  set (path := String c path') in *.
  assert (Hclean : Clean path
            = let kept := foldl (cleanStep (isSlash c)) [] (SplitOn isSlash path) in
              let body := Strings.Join (rev kept) "/" in
              if isSlash c then "/" +:+ body
              else if decide (body = "") then "." else body) by reflexivity.
  rewrite Hclean, Hrooted. cbv zeta.
  rewrite foldl_cleanStep_proper, app_nil_r, rev_involutive by done.
  unfold isSlash. rewrite (Join_SplitOn "/"%char).
  by rewrite decide_False.
Qed.

(** [Join] of a prefix and a path, both relative paths of names, is the
    prefix, a slash and the path. *)
Lemma Join_proper pre path :
  Forall proper (SplitOn isSlash pre) → Forall proper (SplitOn isSlash path) →
  Join [pre; path] = pre +:+ "/" +:+ path.
Proof.
  intros Hpre Hpath. unfold Join.
  rewrite decide_False.
  2:{ intros ->. by apply Forall_cons in Hpre as [(Hne & _) _]. }
  rewrite Join_cons_cons. apply Clean_proper.
  change (pre +:+ "/" +:+ path) with (pre +:+ String "/" path).
  rewrite (SplitOn_sep isSlash pre "/"%char path eq_refl).
  by apply Forall_app.
Qed.

End FilepathFacts.

(** ** The escape of [internal] segments *)
Module RegexpFacts.
Import Strings Regexp StringsFacts.

Lemma matchInternal_inv s rest :
  matchInternal s = Some rest →
  ∃ u, (u = "" ∨ u = "_") ∧ s = u +:+ "internal" +:+ rest.
Proof.
  unfold matchInternal. intros H.
  assert (Hplain : TrimPrefix "internal" s = Some rest →
            ∃ u, (u = "" ∨ u = "_") ∧ s = u +:+ "internal" +:+ rest).
  { intros ->%TrimPrefix_Some. exists "". auto. }
  destruct s as [|c s']; [by apply Hplain|].
  destruct (decide (c = "_"%char)) as [->|Hc].
  - destruct (TrimPrefix "internal" s') as [r|] eqn:E; [|by apply Hplain].
    simplify_eq. apply TrimPrefix_Some in E as ->. exists "_". auto.
  - apply Hplain. revert H.
    destruct c as [[] [] [] [] [] [] [] []]; try done.
Qed.

Lemma matchOptDelim_inv s g2 rest :
  matchOptDelim s = (g2, rest) →
  s = g2 +:+ rest ∧ (g2 = "" ∨ ∃ d, isDelim d = true ∧ g2 = String d "").
Proof.
  unfold matchOptDelim. destruct s as [|d s']; [intros; simplify_eq; auto|].
  destruct (isDelim d) eqn:Hd; intros; simplify_eq; eauto.
Qed.

Lemma namespaceEscape_matchAt_inv s m :
  namespaceEscape_matchAt s = Some m →
  ∃ c u, isDelim c = true ∧ group1 m = String c "" ∧ (u = "" ∨ u = "_") ∧
         (group2 m = "" ∨ ∃ d, isDelim d = true ∧ group2 m = String d "") ∧
         s = String c (u +:+ "internal" +:+ group2 m +:+ after m).
Proof.
  unfold namespaceEscape_matchAt. destruct s as [|c s1]; [done|].
  destruct (isDelim c) eqn:Hc; [|done].
  destruct (matchInternal s1) as [s2|] eqn:Hi; [|done].
  destruct (matchOptDelim s2) as [g2 rest] eqn:Ho. intros; simplify_eq/=.
  apply matchInternal_inv in Hi as (u & Hu & ->).
  apply matchOptDelim_inv in Ho as [-> Hg2].
  exists c, u. eauto 10.
Qed.

(** A match takes at least nine bytes. *)
Lemma namespaceEscape_matchAt_length s m :
  namespaceEscape_matchAt s = Some m →
  String.length (after m) + 9 ≤ String.length s.
Proof.
  intros (c & u & _ & _ & _ & _ & ->)%namespaceEscape_matchAt_inv.
  simpl. rewrite !append_length. simpl. lia.
Qed.

Lemma escaped_refl a : escaped a a.
Proof. by left. Qed.

Lemma Forall2_escaped_refl l : Forall2 escaped l l.
Proof. induction l; constructor; auto using escaped_refl. Qed.

Lemma escaped_internal u t :
  u = "" ∨ u = "_" → escaped (u +:+ "internal" +:+ t) ("_internal" +:+ t).
Proof. intros [->| ->]; [right|left]; eauto. Qed.

(** The escape keeps the first segment and the number of segments, and
    changes the others as [escaped] says. *)
Lemma SplitOn_cons_delim c s :
  isDelim c = true → SplitOn isDelim (String c s) = "" :: SplitOn isDelim s.
Proof. intros Hc. simpl. by rewrite Hc. Qed.

Lemma free_internal u : u = "" ∨ u = "_" → free isDelim (u +:+ "internal").
Proof. by intros [->| ->]. Qed.

(** The escape keeps the first segment and the number of segments, and
    changes the others as [escaped] says. *)
Lemma replaceAll_segments steps src :
  String.length src ≤ steps →
  ∃ piece pieces pieces',
    SplitOn isDelim src = piece :: pieces ∧
    SplitOn isDelim (replaceAll steps src) = piece :: pieces' ∧
    Forall2 escaped pieces pieces'.
Proof.
  revert src. induction steps as [|steps IH]; intros src Hlen.
  { destruct src; simpl in *; [|lia]. exists "", [], []. eauto. }
  simpl. destruct (namespaceEscape_matchAt src) as [m|] eqn:Hm.
  - pose proof (namespaceEscape_matchAt_length _ _ Hm) as Hl.
    apply namespaceEscape_matchAt_inv in Hm as (c & u & Hc & Hg1 & Hu & Hg2 & ->).
    destruct (IH (after m)) as (p & ps & ps' & Hs & Hr & Hf); [lia|].
    pose proof (free_internal u Hu) as Hfree.
    pose proof (escaped_internal u) as Hesc.
    assert (Hfree' : free isDelim "_internal") by done.
    unfold expand. rewrite Hg1.
    set (w' := "_internal") in *. set (w := "internal") in *.
    rewrite !append_assoc, (append_cons c ""), append_empty_l.
    rewrite !(SplitOn_cons_delim c) by done.
    rewrite <- !(append_assoc u w), <- !(append_assoc w').
    destruct Hg2 as [->|(d & Hd & ->)].
    + rewrite append_empty_l, append_empty_r.
      rewrite (SplitOn_free_app _ _ _ _ _ Hfree Hs).
      rewrite (SplitOn_free_app _ _ _ _ _ Hfree' Hr).
      eexists _, _, _. split; [done|]. split; [done|].
      constructor; [|done]. rewrite append_assoc. by apply Hesc.
    + rewrite (append_assoc w'), !(append_cons d ""), !append_empty_l.
      rewrite !(SplitOn_sep _ _ _ _ Hd), Hs, Hr, Hfree, Hfree'.
      eexists _, _, _. split; [done|]. split; [done|]. simpl.
      constructor; [|constructor; [apply escaped_refl|done]].
      specialize (Hesc "" Hu). by rewrite !append_empty_r in Hesc.
  - destruct src as [|c src']; [exists "", [], []; eauto|].
    destruct (IH src') as (p & ps & ps' & Hs & Hr & Hf); [simpl in Hlen; lia|].
    simpl. rewrite Hs, Hr. destruct (isDelim c).
    + eexists _, _, _. split; [done|]. split; [done|].
      constructor; [apply escaped_refl|done].
    + eexists _, _, _. eauto.
Qed.

End RegexpFacts.

(** ** Package paths and the primitive catalog *)
Module IdentifierFacts.
Import Strings Regexp Identifier Primitive StringsFacts RegexpFacts.

(** The configured prefix in front of a path, as [FqcpToPackagePath] puts it. *)
Lemma FqcpToPackagePath_unfold g fqcp :
  FqcpToPackagePath g fqcp
  = let path := ReplaceByte "."%char "/"%char (namespaceEscape_ReplaceAllString fqcp) in
    if decide (PackagePrefix g ≠ "") then Filepath.Join [PackagePrefix g; path] else path.
Proof. reflexivity. Qed.

(** C2. For an identifier with a name and a namespace, [PackagePath] returns
    a path with the configured prefix, when there is one, joined in front by
    [filepath.Join], which for a prefix and a path made of names writes the
    prefix, a slash and the path. For a cyclic identifier the path is the
    reserved [conflictResolution]; for any other it is made of the namespace
    segment by segment: the dots become slashes, the first segment is kept,
    and every later segment is kept or, when it starts with [internal], gets
    an underscore in front. *)
Theorem PackagePath_of_namespace (g : Globals) (i : Identifier) :
  Name i ≠ "" → Namespace i ≠ "" →
  ∃ path,
    PackagePath g i
    = Return (if decide (PackagePrefix g ≠ "")
              then Filepath.Join [PackagePrefix g; path] else path) ∧
    (IsCyclic g i = true → path = "conflictResolution") ∧
    (IsCyclic g i = false →
       path = ReplaceByte "."%char "/"%char
                (namespaceEscape_ReplaceAllString (Namespace i)) ∧
       ∃ first rest rest',
         SplitOn isDelim (Namespace i) = first :: rest ∧
         SplitOn Filepath.isSlash path = first :: rest' ∧
         Forall2 escaped rest rest') ∧
    (Forall Filepath.proper (SplitOn Filepath.isSlash (PackagePrefix g)) →
     Forall Filepath.proper (SplitOn Filepath.isSlash path) →
     Filepath.Join [PackagePrefix g; path] = PackagePrefix g +:+ "/" +:+ path).
Proof.
  intros Hname Hns. unfold PackagePath.
  rewrite decide_False by done. rewrite decide_False by done.
  destruct (IsCyclic g i) eqn:Hcyc.
  - exists "conflictResolution". split; [by rewrite FqcpToPackagePath_unfold|].
    split; [done|]. split; [done|]. apply FilepathFacts.Join_proper.
  - eexists. split; [by rewrite FqcpToPackagePath_unfold|]. split; [done|].
    split; [|apply FilepathFacts.Join_proper].
    intros _. split; [done|].
    rewrite SplitOn_ReplaceByte. unfold namespaceEscape_ReplaceAllString.
    destruct (replaceAll_segments (String.length (Namespace i)) (Namespace i))
      as (p & ps & ps' & ? & ? & ?); [done|]. eauto 10.
Qed.

Lemma PackagePath_of_namespace_witness :
  let g := {| PackagePrefix := "github.com/x/generated";
              IsCyclic := λ i, bool_decide (Name i = "Loop") |} in
  let i := {| Name := "Message"; Namespace := "com.linkedin.internal.test" |} in
  let j := {| Name := "Loop"; Namespace := "com.linkedin.internal.test" |} in
  (Name i ≠ "" ∧ Namespace i ≠ "") ∧
  PackagePath g i = Return "github.com/x/generated/com/linkedin/_internal/test" ∧
  PackagePath g j = Return "github.com/x/generated/conflictResolution" ∧
  ∃ path,
    PackagePath g i
    = Return (if decide (PackagePrefix g ≠ "")
              then Filepath.Join [PackagePrefix g; path] else path) ∧
    (IsCyclic g i = true → path = "conflictResolution") ∧
    (IsCyclic g i = false →
       path = ReplaceByte "."%char "/"%char
                (namespaceEscape_ReplaceAllString (Namespace i)) ∧
       ∃ first rest rest',
         SplitOn isDelim (Namespace i) = first :: rest ∧
         SplitOn Filepath.isSlash path = first :: rest' ∧
         Forall2 escaped rest rest') ∧
    (Forall Filepath.proper (SplitOn Filepath.isSlash (PackagePrefix g)) →
     Forall Filepath.proper (SplitOn Filepath.isSlash path) →
     Filepath.Join [PackagePrefix g; path] = PackagePrefix g +:+ "/" +:+ path).
Proof.
  intros g i j.
  split; [split; discriminate|]. split; [reflexivity|]. split; [reflexivity|].
  apply (PackagePath_of_namespace g i); discriminate.
Defined.

(** C6. An identifier without a namespace has no package path: [PackagePath]
    panics, whatever the name, the prefix and the cyclic set are, and so never
    returns a path, the root or another. *)
Theorem PackagePath_empty_namespace (g : Globals) (i : Identifier) :
  Namespace i = "" →
  PackagePath g i = Panic (formatIdentifier i +:+ " has no namespace!") ∧
  ∀ path, PackagePath g i ≠ Return path.
Proof.
  intros Hns. unfold PackagePath. rewrite decide_True by done. done.
Qed.

Lemma PackagePath_empty_namespace_witness :
  let g := {| PackagePrefix := ""; IsCyclic := λ _, false |} in
  let i := {| Name := "Message"; Namespace := "" |} in
  PackagePath g i = Panic (formatIdentifier i +:+ " has no namespace!") ∧
  ∀ path, PackagePath g i ≠ Return path.
Proof.
  intros g i. apply (PackagePath_empty_namespace g i). reflexivity.
Defined.

(** C9, at the input [a.internal.internal] with no prefix configured: the
    first match of [namespaceEscape] takes the dot after the first
    [internal], no match can start at the second one, and the package path
    keeps a segment that is exactly [internal]. *)
Theorem FqcpToPackagePath_adjacent_internal :
  let g := {| PackagePrefix := ""; IsCyclic := λ _, false |} in
  namespaceEscape_ReplaceAllString "a.internal.internal" = "a._internal.internal" ∧
  FqcpToPackagePath g "a.internal.internal" = "a/_internal/internal" ∧
  SplitOn Filepath.isSlash (FqcpToPackagePath g "a.internal.internal")
  = ["a"; "_internal"; "internal"].
Proof. by vm_compute. Qed.

(** The names of the catalog, in the order of [PrimitiveTypes]. *)
Lemma PrimitiveTypes_names :
  Type_ <$> PrimitiveTypes
  = ["int32"; "int64"; "float32"; "float64"; "bool"; "string"; "bytes"].
Proof. reflexivity. Qed.

Lemma findPrimitive_Some name pts pt :
  findPrimitive name pts = Some pt → pt ∈ pts ∧ Type_ pt = name.
Proof.
  induction pts as [|q pts IH]; simpl; [done|].
  case_decide; intros; simplify_eq; [split; [left|done]|].
  destruct IH as [? ?]; [done|]. split; [by right|done].
Qed.

Lemma findPrimitive_None name pts :
  findPrimitive name pts = None ↔ name ∉ Type_ <$> pts.
Proof.
  induction pts as [|q pts IH]; simpl.
  - split; [intros _; apply not_elem_of_nil|done].
  - rewrite not_elem_of_cons. case_decide; [|rewrite IH; tauto].
    split; [done|]. by intros [? _].
Qed.

(** C5. Whatever string the JSON decoder reads from the data, [UnmarshalJSON]
    succeeds exactly when that string is a name of the catalog [int32],
    [int64], [float32], [float64], [bool], [string], [bytes]; it then sets the
    receiver to the catalog entry of that name. For any other name it returns
    the error [Unknown type] and leaves the receiver as it was. *)
Theorem UnmarshalJSON_closed_catalog
    (json_Unmarshal : string → string + string)
    (p : PrimitiveType) (data name : string) :
  json_Unmarshal data = inl name →
  let catalog := ["int32"; "int64"; "float32"; "float64"; "bool"; "string"; "bytes"] in
  let '(p', err) := UnmarshalJSON json_Unmarshal p data in
  (err = None ↔ name ∈ catalog) ∧
  (name ∈ catalog → p' ∈ PrimitiveTypes ∧ Type_ p' = name) ∧
  (name ∉ catalog → p' = p ∧ err = Some ("Unknown type: " +:+ name)).
Proof.
  intros Hjson catalog. unfold UnmarshalJSON. rewrite Hjson.
  subst catalog. rewrite <- PrimitiveTypes_names.
  destruct (findPrimitive name PrimitiveTypes) as [pt|] eqn:Hfind.
  - pose proof (findPrimitive_Some _ _ _ Hfind) as [Hin Hty].
    assert (name ∈ Type_ <$> PrimitiveTypes).
    { rewrite <- Hty. by apply list_elem_of_fmap_2. }
    naive_solver.
  - apply findPrimitive_None in Hfind. naive_solver.
Qed.

Lemma UnmarshalJSON_closed_catalog_witness :
  let quote := String "034"%char "" in
  let data := quote +:+ "int64" +:+ quote in
  let json := λ d : string,
    if decide (d = data) then inl "int64" else inr "unexpected end of JSON input" in
  let zero := {| Type_ := ""; newInstance := None |} in
  let catalog := ["int32"; "int64"; "float32"; "float64"; "bool"; "string"; "bytes"] in
  json data = inl "int64" ∧
  UnmarshalJSON json zero data
  = ({| Type_ := "int64"; newInstance := Some GoInt64 |}, None) ∧
  let '(p', err) := UnmarshalJSON json zero data in
  (err = None ↔ "int64" ∈ catalog) ∧
  ("int64" ∈ catalog → p' ∈ PrimitiveTypes ∧ Type_ p' = "int64") ∧
  ("int64" ∉ catalog → p' = zero ∧ err = Some ("Unknown type: " +:+ "int64")).
Proof.
  intros quote data json zero catalog.
  split; [reflexivity|]. split; [reflexivity|].
  apply (UnmarshalJSON_closed_catalog json zero data "int64"). reflexivity.
Defined.

End IdentifierFacts.

(** ** The reader that tolerates comments *)
Module ReadJSONFacts.
Import Strings Codefile StringsFacts.

Lemma SliceTo_SliceFrom n s : SliceTo n s +:+ SliceFrom n s = s.
Proof.
  revert s. induction n as [|n IH]; intros [|c s]; try done.
  simpl. by rewrite append_cons, IH.
Qed.

Lemma SliceFrom_add a b s : SliceFrom (a + b) s = SliceFrom b (SliceFrom a s).
Proof.
  revert s. induction a as [|a IH]; intros [|c s]; simpl; try done.
  by destruct b.
Qed.

Lemma SliceFrom_length n s : String.length (SliceFrom n s) = String.length s - n.
Proof. revert s. induction n as [|n IH]; intros [|c s]; simpl; rewrite ?IH; lia. Qed.

Lemma At_SliceFrom s i c : At s i = Some c → SliceFrom i s = String c (SliceFrom (S i) s).
Proof.
  revert i. induction s as [|x s IH]; intros [|i] H; simplify_eq/=; try done.
  rewrite (IH _ H). done.
Qed.

Lemma At_length s i c : At s i = Some c → i < String.length s.
Proof.
  revert i. induction s as [|x s IH]; intros [|i] H; simplify_eq/=; try lia.
  apply IH in H. lia.
Qed.

Lemma TrimPrefix_length prefix s rest :
  TrimPrefix prefix s = Some rest →
  String.length s = String.length prefix + String.length rest.
Proof. intros ->%TrimPrefix_Some. apply append_length. Qed.

(** Where [Index] finds the separator, the separator is. *)
Lemma Index_Some s sep k :
  Index s sep = Some k → ∃ rest, TrimPrefix sep (SliceFrom k s) = Some rest.
Proof.
  revert k. induction s as [|c s IH]; intros k; simpl.
  - destruct (TrimPrefix sep "") eqn:E; [|done]. intros; simplify_eq. simpl. eauto.
  - destruct (TrimPrefix sep (String c s)) eqn:E.
    + intros; simplify_eq. simpl. eauto.
    + destruct (Index s sep) as [k'|] eqn:Ek; [|done]. intros; simplify_eq/=. eauto.
Qed.

Lemma Index_le s sep k : Index s sep = Some k → k ≤ String.length s.
Proof.
  revert k. induction s as [|c s IH]; intros k; simpl.
  - destruct (TrimPrefix sep ""); intros; simplify_eq; lia.
  - destruct (TrimPrefix sep (String c s)); [intros; simplify_eq; lia|].
    destruct (Index s sep) as [k'|]; [|done]. intros; simplify_eq/=.
    specialize (IH k' eq_refl). lia.
Qed.

Lemma Index_bound s sep k :
  Index s sep = Some k → k + String.length sep ≤ String.length s.
Proof.
  intros H. pose proof (Index_le _ _ _ H).
  apply Index_Some in H as [rest Hrest]. apply TrimPrefix_length in Hrest.
  rewrite SliceFrom_length in Hrest. lia.
Qed.

(** A comment that starts with two bytes other than the first byte of its end
    mark is at least three bytes long. *)
Lemma Index_comment c0 c1 s e0 e k :
  c0 ≠ e0 → (c1 ≠ e0 ∨ e ≠ "") →
  Index (String c0 (String c1 s)) (String e0 e) = Some k →
  3 ≤ k + String.length (String e0 e).
Proof.
  intros H0 H1 H. destruct k as [|[|k]]; [exfalso| |simpl; lia].
  - apply Index_Some in H as [rest Hr]. simpl in Hr. by rewrite decide_False in Hr.
  - apply Index_Some in H as [rest Hr]. simpl in Hr.
    destruct (decide (e0 = c1)) as [->|]; [|done].
    destruct H1 as [|He]; [done|]. destruct e; [done|]. simpl. lia.
Qed.

Lemma SliceTo_length n s : String.length (SliceTo n s) = n `min` String.length s.
Proof. revert s. induction n as [|n IH]; intros [|c s]; simpl; rewrite ?IH; lia. Qed.

Lemma index_At data i c :
  index data i = Some c → (0 ≤ i)%Z ∧ At data (Z.to_nat i) = Some c.
Proof. unfold index. case_decide; [done|]. split; [lia|done]. Qed.

(** Cutting the bytes [offset .. offset + n) out of the data. *)
Lemma cut_comment data offset n c0 c1 :
  At data offset = Some c0 → At data (S offset) = Some c1 →
  3 ≤ n → offset + n ≤ String.length data →
  ∃ comment,
    data = SliceTo offset data +:+ comment +:+ SliceFrom (offset + n) data ∧
    String.length comment = n ∧
    ∃ rest, comment = String c0 (String c1 rest).
Proof.
  intros H0 H1 Hn Hlen.
  exists (SliceTo n (SliceFrom offset data)). split; [|split].
  - by rewrite SliceFrom_add, !SliceTo_SliceFrom.
  - rewrite SliceTo_length, SliceFrom_length. lia.
  - rewrite (At_SliceFrom _ _ _ H0), (At_SliceFrom _ _ _ H1).
    destruct n as [|[|n]]; [lia..|]. simpl. eauto.
Qed.

Section Loop.
Variable Unmarshal : string → option error.
Variable filename : string.


(** A turn that goes on has cut a comment out of the data. *)
Lemma iterate_Continue data data' :
  iterate Unmarshal filename data = Continue data' →
  ∃ before comment after,
    data = before +:+ comment +:+ after ∧ data' = before +:+ after ∧
    3 ≤ String.length comment ∧
    (is_Some (TrimPrefix "//" comment) ∨ is_Some (TrimPrefix "/*" comment)).
Proof.
  unfold iterate.
  destruct (Unmarshal data) as [[Offset msg| |]|]; try done.
  case_decide; [done|].
  destruct (index data (Offset - 1)) as [c|] eqn:Hc; [|done].
  case_decide; [subst c|done].
  destruct (index data (Offset - 1 + 1)) as [c1|] eqn:Hc1; [|done].
  apply index_At in Hc as [Hpos Hc]. apply index_At in Hc1 as [_ Hc1].
  replace (Z.to_nat (Offset - 1 + 1)) with (S (Z.to_nat (Offset - 1))) in Hc1 by lia.
  set (offset := Z.to_nat (Offset - 1)) in *.
  assert (Hcut : ∀ e0 e eol,
    "/"%char ≠ e0 → (c1 ≠ e0 ∨ e ≠ "") →
    Index (SliceFrom offset data) (String e0 e) = Some eol →
    ∃ before comment after,
      data = before +:+ comment +:+ after ∧
      SliceTo offset data
        +:+ SliceFrom (offset + eol + String.length (String e0 e)) data
      = before +:+ after ∧
      3 ≤ String.length comment ∧
      ∃ rest, comment = String "/" (String c1 rest)).
  { intros e0 e eol He0 He Hi. pose proof (Index_bound _ _ _ Hi) as Hb.
    rewrite SliceFrom_length in Hb. pose proof (At_length _ _ _ Hc1).
    rewrite (At_SliceFrom _ _ _ Hc), (At_SliceFrom _ _ _ Hc1) in Hi.
    apply Index_comment in Hi; [|done..].
    destruct (cut_comment data offset (eol + String.length (String e0 e))
                _ _ Hc Hc1) as (comment & Hdata & Hl & rest & ->); [lia..|].
    rewrite Nat.add_assoc in Hdata.
    eexists _, _, _. split; [exact Hdata|]. split; [done|]. split; [lia|eauto]. }
  case_decide; [subst c1|case_decide; [subst c1|intros; simplify_eq]].
  - destruct (Index _ newline) as [eol|] eqn:Hi; [|done]. intros; simplify_eq.
    destruct (Hcut "010"%char "" eol ltac:(done) ltac:(by left) Hi)
      as (b & cm & a & ? & ? & ? & rest & ->).
    exists b, (String "/" (String "/" rest)), a.
    repeat (split; [done|]). left. by eexists.
  - destruct (Index _ "*/") as [eol|] eqn:Hi; [|done]. intros; simplify_eq.
    destruct (Hcut "*"%char "/" eol ltac:(done) ltac:(by right) Hi)
      as (b & cm & a & ? & ? & ? & rest & ->).
    exists b, (String "/" (String "*" rest)), a.
    repeat (split; [done|]). right. by eexists.
Qed.

Lemma iterate_Continue_length data data' :
  iterate Unmarshal filename data = Continue data' → String.length data' + 3 ≤ String.length data.
Proof.
  intros (b & c & a & -> & -> & Hc & _)%iterate_Continue.
  rewrite !append_length. lia.
Qed.

(** What a turn that returns can return. *)
Lemma iterate_Returns data err :
  iterate Unmarshal filename data = Returns err →
  listed err ∨ (∃ msg, err = Some (OtherError msg)) ∨
  (∃ offset msg c, err = Some (SyntaxError offset msg) ∧ offset ≠ 0%Z ∧
                   index data (offset - 1) = Some c ∧ c ≠ "/"%char).
Proof.
  unfold iterate, listed.
  destruct (Unmarshal data) as [[Offset msg|name o msg|msg]|];
    [|intros; simplify_eq; eauto 10..].
  case_decide; [intros; simplify_eq; eauto 10|].
  destruct (index data (Offset - 1)) as [c|] eqn:Hc; [|done].
  case_decide; [|intros; simplify_eq; eauto 15].
  destruct (index data (Offset - 1 + 1)) as [c1|]; [|done].
  repeat case_decide; repeat case_match; intros; simplify_eq; eauto 10.
Qed.

(** With more turns than the data has bytes the loop comes to an end, and
    to the same end however many turns more it is given. *)
Lemma readLoop_enough turns data :
  String.length data < turns →
  ∃ result, ∀ turns', String.length data < turns' →
                      readLoop Unmarshal turns' filename data = Some result.
Proof.
  revert data. induction turns as [|turns IH]; intros data Hlen; [lia|].
  destruct (iterate Unmarshal filename data) as [err|data'|] eqn:Hit.
  - exists (Return (data, err)). intros [|turns'] ?; [lia|].
    simpl. by rewrite Hit.
  - pose proof (iterate_Continue_length _ _ Hit).
    destruct (IH data') as [result Hres]; [lia|].
    exists result. intros [|turns'] ?; [lia|].
    simpl. rewrite Hit. apply Hres. lia.
  - exists (Panic "runtime error: index out of range"). intros [|turns'] ?; [lia|].
    simpl. by rewrite Hit.
Qed.

End Loop.

(** C10, as the code has it. The loop of [ReadJSONFromFile] ends for every
    input and every decoder: a turn either runs into an index out of range,
    or returns (success, a syntax error at offset zero, a malformed-file
    error, or the error of the decoder as it is, when that is not a syntax
    error or the byte it points at is not a slash), or cuts a comment of at
    least three bytes that starts with [//] or [/*] out of the data and
    goes on with the shorter data. One turn more than the data has bytes is
    always enough, and [ReadJSONFromFile] has a result. *)
Theorem ReadJSONFromFile_loop_terminates
    (ReadFile : string → string + string) (Unmarshal : string → option error)
    (filename data : string) :
  match iterate Unmarshal filename data with
  | Returns err =>
      listed err ∨ (∃ msg, err = Some (OtherError msg)) ∨
      (∃ offset msg c, err = Some (SyntaxError offset msg) ∧ offset ≠ 0%Z ∧
                       index data (offset - 1) = Some c ∧ c ≠ "/"%char)
  | Continue data' =>
      String.length data' < String.length data ∧
      ∃ before comment after,
        data = before +:+ comment +:+ after ∧ data' = before +:+ after ∧
        3 ≤ String.length comment ∧
        (is_Some (TrimPrefix "//" comment) ∨ is_Some (TrimPrefix "/*" comment))
  | IndexOutOfRange => True
  end ∧
  (∃ result, ∀ turns, String.length data < turns →
                      readLoop Unmarshal turns filename data = Some result) ∧
  (∃ result, ReadJSONFromFile ReadFile Unmarshal filename = Some result).
Proof.
  split; [|split].
  - destruct (iterate Unmarshal filename data) as [err|data'|] eqn:Hit; [| |done].
    + by apply (iterate_Returns Unmarshal filename).
    + split; [|by apply (iterate_Continue Unmarshal filename)].
      apply (iterate_Continue_length Unmarshal filename) in Hit. lia.
  - apply (readLoop_enough Unmarshal filename (S (String.length data))). lia.
  - unfold ReadJSONFromFile. destruct (ReadFile filename) as [file|err]; [|eauto].
    destruct (readLoop_enough Unmarshal filename (S (String.length file)) file)
      as [result Hres]; [lia|].
    exists result. apply Hres. lia.
Qed.

(** C10, as it is stated, fails on the one-byte file [x]: the decoder of
    [encoding/json] reports a syntax error at offset 1 there, the byte it
    points at is not a slash, and the turn returns that error, which is not
    a success, not at offset zero and not a malformed-file error. *)
Lemma iterate_returns_unlisted_error :
  let Unmarshal := λ data : string,
    if decide (data = "x")
    then Some (SyntaxError 1 "invalid character 'x' looking for beginning of value")
    else None in
  iterate Unmarshal "schema.pdsc" "x"
  = Returns (Some (SyntaxError 1 "invalid character 'x' looking for beginning of value")) ∧
  ¬ returnsListedOrShrinks Unmarshal "schema.pdsc" "x".
Proof.
  split; [reflexivity|].
  unfold returnsListedOrShrinks, listed. simpl.
  intros [?|[[msg ?]|(? & ? & ? & ?)]]; simplify_eq.
Qed.

End ReadJSONFacts.

(** ** Merging the code files *)
Module CodefileFacts.
Import Strings Codefile StringsFacts.

Section Merge.
Context {Statement : Type}.
Variable Render : Statement → string + string.

Implicit Types (f g e : CodeFile Statement) (files pre : list (CodeFile Statement)).
Implicit Types (m : gmap string (CodeFile Statement)).

Lemma firsts_cons f files : firsts (f :: files) = <[Identifier f := f]> (firsts files).
Proof. reflexivity. Qed.

(** [firsts] holds, for an identifier, the first file that carries it. *)
Lemma firsts_lookup_Some files id e :
  firsts files !! id = Some e ↔
  ∃ i, files !! i = Some e ∧ Identifier e = id ∧
       ∀ j g, files !! j = Some g → Identifier g = id → i ≤ j.
Proof.
  revert e. induction files as [|f files IH]; intros e.
  - unfold firsts. simpl. rewrite lookup_empty. split; [done|]. by intros (i & ? & _).
  - rewrite firsts_cons. destruct (decide (Identifier f = id)) as [Hid|Hid].
    + rewrite Hid, lookup_insert_eq. split.
      * intros [= <-]. exists 0. split; [done|]. split; [done|]. intros; lia.
      * intros (i & Hi & _ & Hmin). specialize (Hmin 0 f eq_refl Hid).
        assert (i = 0) as -> by lia. by simplify_eq/=.
    + rewrite lookup_insert_ne by done. rewrite IH. split.
      * intros (i & Hi & He & Hmin). exists (S i). split; [done|]. split; [done|].
        intros [|j] g Hj Hg; simplify_eq/=. specialize (Hmin j g Hj Hg). lia.
      * intros ([|i] & Hi & He & Hmin); simplify_eq/=.
        exists i. split; [done|]. split; [done|].
        intros j g Hj Hg. specialize (Hmin (S j) g Hj Hg). lia.
Qed.

Lemma firsts_lookup_None files id :
  firsts files !! id = None ↔ ∀ g, g ∈ files → Identifier g ≠ id.
Proof.
  induction files as [|f files IH].
  - unfold firsts. simpl. rewrite lookup_empty. split; [|done].
    intros _ g Hg. by apply elem_of_nil in Hg.
  - rewrite firsts_cons. destruct (decide (Identifier f = id)) as [Hid|Hid].
    + rewrite Hid, lookup_insert_eq. split; [done|].
      intros H. destruct (H f); [left|done].
    + rewrite lookup_insert_ne by done. rewrite IH. split.
      * intros H g [->|Hg]%elem_of_cons; auto.
      * intros H g Hg. apply H. by right.
Qed.

Lemma firsts_lookup_is_Some files id :
  is_Some (firsts files !! id) ↔ ∃ g, g ∈ files ∧ Identifier g = id.
Proof.
  rewrite <- not_eq_None_Some, firsts_lookup_None. split.
  - intros H. destruct (decide (Exists (λ g, Identifier g = id) files)) as [He|Hn].
    + apply Exists_exists in He. done.
    + exfalso. apply H. intros g Hg Hid. apply Hn, Exists_exists. eauto.
  - intros (g & Hg & Hid) H. by apply (H g).
Qed.

(** One more file at the end is the first of its identifier or changes
    nothing. *)
Lemma firsts_snoc pre f :
  firsts (pre ++ [f])
  = match firsts pre !! Identifier f with
    | Some _ => firsts pre
    | None => <[Identifier f := f]> (firsts pre)
    end.
Proof.
  induction pre as [|p pre IH]; [done|].
  rewrite <- app_comm_cons, !firsts_cons, IH.
  destruct (decide (Identifier p = Identifier f)) as [Hid|Hid].
  - rewrite Hid, lookup_insert_eq.
    destruct (firsts pre !! Identifier f); [done|]. by rewrite insert_insert_eq.
  - rewrite lookup_insert_ne by done.
    destruct (firsts pre !! Identifier f); [done|]. by apply insert_insert_ne.
Qed.

(** For file names without a dot the identifier is the pair of the package
    path and the file name. *)
Lemma Identifier_inj f g :
  dotFree (Filename f) → dotFree (Filename g) →
  Identifier f = Identifier g →
  PackagePath f = PackagePath g ∧ Filename f = Filename g.
Proof. intros Hf Hg. by apply (append_sep_inj "."%char). Qed.

(** A dot in a file name can make the identifiers of two different pairs
    meet. *)
Remark Identifier_dotted_name (code : Statement) :
  Identifier {| SourceFilename := ""; PackagePath := "a"; Filename := "b.c"; Code := code |}
  = Identifier {| SourceFilename := ""; PackagePath := "a.b"; Filename := "c"; Code := code |}.
Proof. reflexivity. Qed.

Lemma sameCode_trans_l e f g :
  sameCode Render e f → sameCode Render e g → sameCode Render f g.
Proof. intros (c & He & Hf) (c' & He' & Hg). exists c. split; [done|]. congruence. Qed.

(** The files stay consistent when a file comes that has the code of the
    first file of its identifier, or is the first itself. *)
Lemma consistent_snoc pre f :
  consistent Render pre →
  (∀ e, firsts pre !! Identifier f = Some e → sameCode Render e f) →
  consistent Render (pre ++ [f]).
Proof.
  intros Hpre Hf i j a b Hij Ha Hb Hid.
  destruct (decide (j < length pre)) as [Hj|Hj].
  - rewrite lookup_app_l in Ha, Hb by lia. by apply (Hpre i j).
  - rewrite lookup_app_r in Hb by lia.
    destruct (j - length pre) as [|n] eqn:Hn; [|by destruct n].
    injection Hb as ->. rewrite lookup_app_l in Ha by lia.
    destruct (firsts pre !! Identifier b) as [e|] eqn:He.
    + pose proof (Hf e eq_refl) as Heb.
      apply firsts_lookup_Some in He as (k & Hk & Hek & Hmin).
      specialize (Hmin i a Ha Hid).
      destruct (decide (k = i)) as [->|Hne]; [by simplify_eq|].
      apply (sameCode_trans_l e); [|done]. apply (Hpre k i); [lia|done|done|congruence].
    + rewrite firsts_lookup_None in He. destruct (He a); [|done].
      by apply list_elem_of_lookup_2 in Ha.
Qed.

Lemma consistent_app_l pre files :
  consistent Render (pre ++ files) → consistent Render pre.
Proof.
  intros H i j f g Hij Hf Hg. apply (H i j); [done|..]; by apply lookup_app_l_Some.
Qed.

(** The loop of [DeduplicateFiles], started on the files [pre] have left. *)
Lemma collect_Return pre files m' :
  collect Render (firsts pre) files = Return m' →
  m' = firsts (pre ++ files) ∧
  (consistent Render pre → consistent Render (pre ++ files)).
Proof.
  revert pre. induction files as [|f files IH]; intros pre; simpl.
  - intros [= <-]. by rewrite app_nil_r.
  - rewrite (cons_middle f pre files), (assoc_L (++)).
    pose proof (firsts_snoc pre f) as Hsnoc.
    pose proof (consistent_snoc pre f) as Hcons.
    destruct (firsts pre !! Identifier f) as [e|] eqn:He.
    + destruct (Render (Code e)) as [c|] eqn:Hce; [|done].
      destruct (Render (Code f)) as [c'|] eqn:Hcf; [|done].
      case_decide; [subst c'|done]. rewrite <- Hsnoc. intros [-> Hc]%IH.
      split; [done|]. intros Hpre. apply Hc, Hcons; [done|].
      intros ? [= <-]. by exists c.
    + rewrite <- Hsnoc. intros [-> Hc]%IH.
      split; [done|]. intros Hpre. apply Hc, Hcons; [done|]. done.
Qed.

Lemma collect_consistent pre files :
  consistent Render (pre ++ files) →
  ∃ m', collect Render (firsts pre) files = Return m'.
Proof.
  revert pre. induction files as [|f files IH]; intros pre; simpl; [eauto|].
  rewrite (cons_middle f pre files), (assoc_L (++)). intros Hall.
  pose proof (firsts_snoc pre f) as Hsnoc.
  destruct (firsts pre !! Identifier f) as [e|] eqn:He.
  - apply firsts_lookup_Some in He as (k & Hk & Hek & _).
    pose proof (lookup_lt_Some _ _ _ Hk) as Hlt.
    assert (Hsame : sameCode Render e f).
    { apply (Hall k (length pre)); [done| | |done].
      - apply lookup_app_l_Some. by apply lookup_app_l_Some.
      - apply lookup_app_l_Some. by rewrite list_lookup_middle. }
    destruct Hsame as (c & -> & ->).
    rewrite decide_True by done. rewrite <- Hsnoc. by apply IH.
  - rewrite <- Hsnoc. by apply IH.
Qed.

Lemma conflict_app_l pre files id c c' :
  conflict Render pre id c c' → conflict Render (pre ++ files) id c c'.
Proof.
  intros (i & j & f & g & ? & Hf & Hg & ?).
  exists i, j, f, g. split; [done|]. split; [by apply lookup_app_l_Some|].
  split; [by apply lookup_app_l_Some|done].
Qed.

Lemma collect_Fatal pre files msg :
  collect Render (firsts pre) files = Fatal msg →
  ∃ id c c', conflict Render (pre ++ files) id c c' ∧ msg = conflictMessage id c c'.
Proof.
  revert pre. induction files as [|f files IH]; intros pre; simpl; [done|].
  rewrite (cons_middle f pre files), (assoc_L (++)).
  pose proof (firsts_snoc pre f) as Hsnoc.
  destruct (firsts pre !! Identifier f) as [e|] eqn:He.
  - destruct (Render (Code e)) as [c|] eqn:Hce; [|done].
    destruct (Render (Code f)) as [c'|] eqn:Hcf; [|done].
    case_decide; [rewrite <- Hsnoc; by apply IH|].
    intros [= <-]. exists (Identifier f), c, c'. split; [|done].
    apply conflict_app_l.
    apply firsts_lookup_Some in He as (k & Hk & Hek & _).
    pose proof (lookup_lt_Some _ _ _ Hk) as Hlt.
    exists k, (length pre), e, f. split; [done|].
    split; [by apply lookup_app_l_Some|]. split; [by rewrite list_lookup_middle|done].
  - rewrite <- Hsnoc. by apply IH.
Qed.

Lemma collect_Panic pre files err :
  collect Render (firsts pre) files = Panic err →
  ∃ h, h ∈ pre ++ files ∧ Render (Code h) = inr err.
Proof.
  revert pre. induction files as [|f files IH]; intros pre; simpl; [done|].
  rewrite (cons_middle f pre files), (assoc_L (++)).
  pose proof (firsts_snoc pre f) as Hsnoc.
  destruct (firsts pre !! Identifier f) as [e|] eqn:He.
  - apply firsts_lookup_Some in He as (k & Hk%list_elem_of_lookup_2 & _).
    destruct (Render (Code e)) as [c|] eqn:Hce.
    + destruct (Render (Code f)) as [c'|] eqn:Hcf.
      * case_decide; [|done]. rewrite <- Hsnoc. by apply IH.
      * intros [= <-]. exists f. split; [|done]. set_solver.
    + intros [= <-]. exists e. split; [|done]. set_solver.
  - rewrite <- Hsnoc. by apply IH.
Qed.

End Merge.
End CodefileFacts.

(** ** The output of the merge and the aggregate of imports *)
Module DeduplicateFacts.
Import Strings Codefile StringsFacts CodefileFacts.

(** The keys a visiting order yields. *)
Lemma visit_NoDup (range : Range) {V} (m : gmap string V) : NoDup (visit range V m).
Proof. rewrite (visit_keys range V m). apply NoDup_fst_map_to_list. Qed.

Lemma visit_elem_of (range : Range) {V} (m : gmap string V) k :
  k ∈ visit range V m ↔ is_Some (m !! k).
Proof.
  rewrite (visit_keys range V m), list_elem_of_fmap. split.
  - intros ([k' v] & -> & Hkv%elem_of_map_to_list). by eexists.
  - intros [v Hv]. exists (k, v). split; [done|]. by apply elem_of_map_to_list.
Qed.

(** [sort.Strings] after any two visiting orders gives the same list. *)
Lemma sort_visit_unique (range range' : Range) {V} (m : gmap string V) :
  sort_Strings (visit range V m) = sort_Strings (visit range' V m).
Proof.
  unfold sort_Strings. apply (Sorted_unique String.le).
  - apply Sorted_merge_sort, _.
  - apply Sorted_merge_sort, _.
  - by rewrite !merge_sort_Permutation, !visit_keys.
Qed.

Lemma sort_Strings_elem_of l k : k ∈ sort_Strings l ↔ k ∈ l.
Proof. unfold sort_Strings. by rewrite merge_sort_Permutation. Qed.

Lemma sort_Strings_NoDup l : NoDup l → NoDup (sort_Strings l).
Proof. unfold sort_Strings. by rewrite merge_sort_Permutation. Qed.

Section Output.
Context {Statement : Type}.
Implicit Types (m : gmap string (CodeFile Statement)) (ks : list string).

(** Looking the keys up gives one file for each, of that identifier. *)
Lemma omap_lookup_keys m ks :
  (∀ k, k ∈ ks → ∃ u, m !! k = Some u ∧ Identifier u = k) →
  Identifier <$> omap (λ id, m !! id) ks = ks.
Proof.
  induction ks as [|k ks IH]; intros H; [done|]. csimpl.
  destruct (H k) as (u & -> & Hu); [left|]. csimpl. rewrite Hu, IH; [done|].
  intros k' Hk'. apply H. by right.
Qed.

Lemma elem_of_omap_lookup m ks u :
  u ∈ omap (λ id, m !! id) ks ↔ ∃ k, k ∈ ks ∧ m !! k = Some u.
Proof. by rewrite list_elem_of_omap. Qed.

Lemma filter_Identifier_none (out : list (CodeFile Statement)) id :
  (∀ y, y ∈ out → Identifier y ≠ id) → filter (λ x, Identifier x = id) out = [].
Proof.
  induction out as [|y out IH]; intros H; [done|].
  rewrite filter_cons_False; [|apply H; left].
  apply IH. intros y' Hy'. apply H. by right.
Qed.

(** In a list without two files of one identifier, the files of an
    identifier are one file. *)
Lemma filter_Identifier_unique (out : list (CodeFile Statement)) u :
  NoDup (Identifier <$> out) → u ∈ out →
  filter (λ x, Identifier x = Identifier u) out = [u].
Proof.
  induction out as [|x out IH]; intros Hnd Hu; [by apply elem_of_nil in Hu|].
  rewrite fmap_cons in Hnd. apply NoDup_cons in Hnd as [Hx Hnd].
  assert (Hnone : ∀ y, y ∈ out → Identifier y ≠ Identifier x).
  { intros y Hy Heq. apply Hx. rewrite <- Heq. by apply list_elem_of_fmap_2. }
  apply elem_of_cons in Hu as [Heq|Hu].
  - subst x. rewrite filter_cons_True by done. f_equal.
    by apply filter_Identifier_none.
  - rewrite filter_cons_False; [by apply IH|].
    intros Heq. by apply (Hnone u).
Qed.

End Output.

Section Deduplicate.
Context {Statement : Type}.
Variable Render : Statement → string + string.
Implicit Types (range : Range) (files out : list (CodeFile Statement)).

Lemma output_identifiers range files :
  Identifier <$> output range files
  = sort_Strings (visit range _ (firsts files)).
Proof.
  unfold output. apply omap_lookup_keys. intros k [u Hu]%sort_Strings_elem_of%visit_elem_of.
  exists u. split; [done|]. by apply firsts_lookup_Some in Hu as (_ & _ & ? & _).
Qed.

Lemma output_elem_of range files u :
  u ∈ output range files ↔ ∃ id, firsts files !! id = Some u.
Proof.
  unfold output. rewrite elem_of_omap_lookup. split; [intros (k & _ & ?); eauto|].
  intros [id Hid]. exists id. split; [|done].
  apply sort_Strings_elem_of, visit_elem_of. by eexists.
Qed.

Lemma output_range_irrelevant range range' files :
  output range files = output range' files.
Proof. unfold output. by rewrite (sort_visit_unique range range'). Qed.

(** [DeduplicateFiles] returns exactly for consistent files, and then the
    [output]. *)
Lemma DeduplicateFiles_Return range files out :
  DeduplicateFiles Render range files = Return out ↔
  consistent Render files ∧ out = output range files.
Proof.
  unfold DeduplicateFiles. change ∅ with (firsts (@nil (CodeFile Statement))). split.
  - destruct (collect _ _ _) as [m| |] eqn:Hc; [|done..].
    apply collect_Return in Hc as [-> Hcons]. intros [= <-]. split; [|done].
    apply Hcons. by intros i j f g _ ?.
  - intros [Hcons ->]. destruct (collect_consistent Render [] files Hcons) as [m Hm].
    rewrite Hm. by apply collect_Return in Hm as [-> _].
Qed.

Lemma DeduplicateFiles_Fatal range files msg :
  DeduplicateFiles Render range files = Fatal msg →
  ∃ id c c', conflict Render files id c c' ∧ msg = conflictMessage id c c'.
Proof.
  unfold DeduplicateFiles. change ∅ with (firsts (@nil (CodeFile Statement))).
  destruct (collect _ _ _) as [m| |] eqn:Hc; [done..|].
  intros [= <-]. by apply collect_Fatal in Hc.
Qed.

Lemma DeduplicateFiles_Panic range files err :
  DeduplicateFiles Render range files = Panic err →
  ∃ h, h ∈ files ∧ Render (Code h) = inr err.
Proof.
  unfold DeduplicateFiles. change ∅ with (firsts (@nil (CodeFile Statement))).
  destruct (collect _ _ _) as [m| |] eqn:Hc; [done| |done].
  intros [= <-]. by apply collect_Panic in Hc.
Qed.

(** On a list of files whose names have no dot, the files of an
    identifier are the files of a key. *)
Lemma filter_sameKey files out f :
  Forall (λ h, dotFree (Filename h)) files → f ∈ files →
  (∀ u, u ∈ out → u ∈ files) →
  filter (λ x, sameKey x f) out = filter (λ x, Identifier x = Identifier f) out.
Proof.
  rewrite Forall_forall. intros Hdot Hf Hsub.
  induction out as [|x out IH]; [done|].
  assert (Hx : sameKey x f ↔ Identifier x = Identifier f).
  { split.
    - intros [Hpath Hname]. unfold Identifier. by rewrite Hpath, Hname.
    - apply Identifier_inj; apply Hdot; [apply Hsub; left|done]. }
  rewrite !filter_cons. rewrite IH by (intros u Hu; apply Hsub; by right).
  destruct (decide (sameKey x f)) as [Hk|Hk];
    destruct (decide (Identifier x = Identifier f)) as [Hi|Hi]; tauto.
Qed.



End Deduplicate.




(** The imports of the aggregate file. *)
Section Imports.
Context {Statement : Type}.

Lemma imports_lookup (codeFiles : list (CodeFile Statement)) (imports : gmap string bool) p :
  is_Some (foldl (λ imports code, <[PackagePath code := true]> imports)
             imports codeFiles !! p) ↔
  is_Some (imports !! p) ∨ ∃ code, code ∈ codeFiles ∧ PackagePath code = p.
Proof.
  revert imports. induction codeFiles as [|c cs IH]; intros imports; simpl.
  - split; [by left|]. intros [?|(? & []%elem_of_nil & _)]. done.
  - rewrite IH. destruct (decide (PackagePath c = p)) as [<-|Hne].
    + rewrite lookup_insert_eq. split; [|by eauto].
      intros _. right. exists c. split; [left|done].
    + rewrite lookup_insert_ne by done. split.
      * intros [?|(code & ? & ?)]; [by left|]. right. exists code. split; [by right|done].
      * intros [?|(code & [->|?]%elem_of_cons & ?)]; [by left|done|]. right. eauto.
Qed.

Lemma Anons_foldl (ks : list string) (f : File) p :
  p ∈ Anons (foldl (λ f p, Anon p f) f ks) ↔ p ∈ Anons f ∨ p ∈ ks.
Proof.
  revert f. induction ks as [|k ks IH]; intros f; simpl.
  - split; [by left|]. intros [?|[]%elem_of_nil]. done.
  - rewrite IH. simpl. rewrite elem_of_union, elem_of_singleton, elem_of_cons. tauto.
Qed.

Lemma Quals_AddFunc (d : FuncDecl) (f : File) :
  Quals (AddFunc d f) = Quals f ∪ list_to_set ((λ param, param.1.2) <$> FuncParams d).
Proof.
  unfold Quals, AddFunc. cbn [Decls].
  rewrite flat_map_app, list_to_set_app_L. cbn [flat_map]. by rewrite app_nil_r.
Qed.

Lemma Quals_foldl_Anon (ks : list string) (f : File) :
  Quals (foldl (λ f p, Anon p f) f ks) = Quals f.
Proof. revert f. induction ks as [|k ks IH]; intros f; simpl; [done|]. by rewrite IH. Qed.

(** C8, as the code has it. The paths that the aggregate file imports
    anonymously are the package paths of the code files: each of them, and no
    other path, whatever the order in which the runtime visits the map of
    imports. The file imports one package more, [testing], which the one
    function it declares, [TestAllImports], names in its parameter. *)
Theorem GenerateAllImportsFile_imports (range : Range)
    (PackagePrefix outputDir : string) (codeFiles : list (CodeFile Statement))
    (p : string) :
  let file := (GenerateAllImportsFile range PackagePrefix outputDir codeFiles).2 in
  (p ∈ Anons file ↔ ∃ code, code ∈ codeFiles ∧ PackagePath code = p) ∧
  (p ∈ Imports file ↔
   p = "testing" ∨ ∃ code, code ∈ codeFiles ∧ PackagePath code = p) ∧
  Decls file = [{| FuncName := "TestAllImports";
                   FuncParams := [("*", "testing", "T")] |}].
Proof.
  intros file.
  assert (Hanons : p ∈ Anons file ↔ ∃ code, code ∈ codeFiles ∧ PackagePath code = p).
  { subst file. unfold GenerateAllImportsFile. simpl.
    rewrite Anons_foldl, visit_elem_of, imports_lookup, lookup_empty. simpl.
    split.
    - intros [[]%elem_of_empty|[[? [=]]|?]]. done.
    - intros ?. right. by right. }
  assert (Hdecls : ∀ (ks : list string) (f : File),
            Decls (foldl (λ f p, Anon p f) f ks) = Decls f).
  { intros ks. induction ks as [|k ks IH]; intros f; simpl; [done|]. by rewrite IH. }
  split; [exact Hanons|]. split.
  - unfold Imports. rewrite elem_of_union, Hanons.
    subst file. unfold GenerateAllImportsFile. cbv zeta. simpl snd.
    rewrite Quals_AddFunc, Quals_foldl_Anon. simpl.
    rewrite elem_of_union, elem_of_union, elem_of_singleton.
    unfold Quals. simpl. rewrite !elem_of_empty. tauto.
  - subst file. unfold GenerateAllImportsFile. simpl. by rewrite Hdecls.
Qed.

End Imports.

(** C8, as it is stated, fails for every list of code files whose package
    paths are not [testing]: the aggregate file imports [testing] too. *)
Lemma GenerateAllImportsFile_imports_testing :
  let code :=
    {| SourceFilename := "message.pdsc"; PackagePath := "generated/org/example";
       Filename := "Message"; Code := tt |} in
  let file := (GenerateAllImportsFile inMapOrder "generated" "out" [code]).2 in
  (∀ p, p ∈ Imports file ↔ p = "generated/org/example" ∨ p = "testing") ∧
  ¬ importsThePackagePaths [code] file.
Proof.
  intros code file.
  assert (Himports : ∀ p, p ∈ Imports file ↔ p = "generated/org/example" ∨ p = "testing").
  { intros p. unfold Imports. rewrite elem_of_union.
    assert (Ha : Anons file = {[ "generated/org/example" ]}) by (vm_compute; reflexivity).
    assert (Hq : Quals file = {[ "testing" ]}) by (vm_compute; reflexivity).
    by rewrite Ha, Hq, !elem_of_singleton. }
  split; [exact Himports|].
  intros Hexact. destruct (proj1 (Hexact "testing")) as (c & Hc & Hpath).
  - apply Himports. by right.
  - apply list_elem_of_singleton in Hc as ->. discriminate.
Qed.

End DeduplicateFacts.

(** ** The path of a nested resource *)
Module SchemaFacts.
Import Strings Schema StringsFacts.

Lemma buildQueryPath_cons r rs rawQueryPath :
  rs ≠ [] →
  buildQueryPath (r :: rs) rawQueryPath
  = Path r +:+ "/" +:+
    match getIdentifier r with
    | Some _ => placeholder +:+ "/"
    | None => ""
    end +:+ buildQueryPath rs rawQueryPath.
Proof. by destruct rs. Qed.

(** [buildQueryPath] writes the elements of the ancestors and then the path
    it is given. *)
Lemma buildQueryPath_elements parents this rawQueryPath :
  buildQueryPath (parents ++ [this]) rawQueryPath
  = Join (flat_map pathElements parents ++ [rawQueryPath]) "/".
Proof.
  induction parents as [|r parents IH]; [done|].
  rewrite <- app_comm_cons, buildQueryPath_cons by (by destruct parents).
  rewrite IH.
  change (flat_map pathElements (r :: parents))
    with (pathElements r ++ flat_map pathElements parents).
  rewrite <- (assoc_L (++)).
  set (tail := flat_map pathElements parents ++ [rawQueryPath]).
  assert (tail ≠ []) by (subst tail; by destruct (flat_map pathElements parents)).
  destruct tail as [|t tail']; [done|]. unfold pathElements.
  destruct (getIdentifier r).
  - rewrite <- !app_comm_cons, app_nil_l, !Join_cons_cons. by rewrite !append_assoc.
  - rewrite <- !app_comm_cons, app_nil_l, !Join_cons_cons. by rewrite append_empty_l.
Qed.

Lemma omap_fmap_identifier (resources : list Resource) :
  omap (λ r, (λ id, IdName id +:+ "Str") <$> getIdentifier r) resources
  = (λ id, IdName id +:+ "Str") <$> omap getIdentifier resources.
Proof.
  induction resources as [|r rs IH]; [done|]. csimpl.
  destruct (getIdentifier r); csimpl; by rewrite IH.
Qed.

Lemma length_omap_getIdentifier (resources : list Resource) :
  length (omap getIdentifier resources)
  = length (filter (λ r, is_Some (getIdentifier r)) resources).
Proof.
  induction resources as [|r rs IH]; [done|]. csimpl.
  destruct (getIdentifier r) eqn:E; csimpl.
  - rewrite filter_cons_True by (by rewrite E). simpl. by rewrite IH.
  - rewrite filter_cons_False; [done|]. rewrite E. by intros [].
Qed.

(** C3. For a keyed resource under a chain of ancestors, the format that the
    generated [Get] hands to [fmt.Sprintf] is the path made, outermost
    ancestor first, of the segment of every resource of the chain, each
    followed by one placeholder when the resource is keyed, the resource
    itself last with the placeholder of its own entity; the arguments that
    fill the placeholders are the identifiers of the keyed resources in the
    same order, one for every keyed ancestor and one for the resource. *)
Theorem generateGet_path_template
    (parentResources : list Resource) (thisResource : Resource)
    (id : ResourceIdentifier) :
  getIdentifier thisResource = Some id →
  let call := generateGet parentResources thisResource in
  let resources := parentResources ++ [thisResource] in
  Format call = Join (flat_map pathElements resources) "/" ∧
  Args call = (λ id, IdName id +:+ "Str") <$> omap getIdentifier resources ∧
  length (Args call)
  = length (filter (λ r, is_Some (getIdentifier r)) parentResources) + 1.
Proof.
  intros Hid call resources. subst call resources. unfold generateGet. simpl.
  split; [|split].
  - rewrite buildQueryPath_elements, flat_map_app. simpl.
    rewrite Hid, app_nil_r.
    set (l := flat_map pathElements parentResources).
    change (l ++ [Path thisResource; placeholder])
      with (l ++ [Path thisResource] ++ [placeholder]).
    rewrite (assoc_L (++)).
    rewrite (Join_snoc (l ++ [Path thisResource]) placeholder)
      by (by intros [_ ?]%app_eq_nil).
    done.
  - apply omap_fmap_identifier.
  - rewrite omap_fmap_identifier, length_fmap, length_omap_getIdentifier.
    rewrite filter_app, length_app.
    rewrite filter_cons_True by (by rewrite Hid). done.
Qed.

Lemma generateGet_path_template_witness :
  let org := {| Path := "orgs"; getIdentifier := Some {| IdName := "orgId" |} |} in
  let team := {| Path := "teams"; getIdentifier := Some {| IdName := "teamId" |} |} in
  let member := {| Path := "members"; getIdentifier := Some {| IdName := "memberId" |} |} in
  getIdentifier member = Some {| IdName := "memberId" |} ∧
  generateGet [org; team] member
  = {| Format := "orgs/%s/teams/%s/members/%s";
       Args := ["orgIdStr"; "teamIdStr"; "memberIdStr"] |} ∧
  Format (generateGet [org; team] member)
  = Join (flat_map pathElements [org; team; member]) "/" ∧
  Args (generateGet [org; team] member)
  = (λ id, IdName id +:+ "Str") <$> omap getIdentifier [org; team; member] ∧
  length (Args (generateGet [org; team] member))
  = length (filter (λ r, is_Some (getIdentifier r)) [org; team]) + 1.
Proof.
  intros org team member.
  split; [reflexivity|]. split; [reflexivity|].
  apply (generateGet_path_template [org; team] member {| IdName := "memberId" |}).
  reflexivity.
Defined.

End SchemaFacts.

(** ** The resources with a complex key *)
Module ResourceParserFacts.
Import Strings ResourceParser.

Lemma parseEach_fst parseSub subs :
  (parseEach parseSub subs).1 = flat_map (λ sub, (parseSub sub).1) subs.
Proof. induction subs as [|sub subs IH]; [done|]. simpl. by rewrite IH. Qed.

Lemma parseEach_snd parseSub subs :
  (parseEach parseSub subs).2 = flat_map (λ sub, (parseSub sub).2) subs.
Proof. induction subs as [|sub subs IH]; [done|]. simpl. by rewrite IH. Qed.

Lemma flat_map_fmap {A B C} (f : B → list C) (g : A → B) (l : list A) :
  flat_map f (g <$> l) = flat_map (λ x, f (g x)) l.
Proof. induction l as [|x l IH]; [done|]. csimpl. by rewrite IH. Qed.

Lemma parse_complex_key filename root chain pathKeys s :
  hasComplexKey s = true →
  parse filename root chain pathKeys s
  = ([], [skipMessage (chain ++ [getName s])]).
Proof. intros H. destruct s. simpl in *. by rewrite H. Qed.

(** A resource that is not skipped is returned, and with it what the
    parsers of its sub-resources return. *)
Lemma parse_supported filename root chain pathKeys s :
  hasComplexKey s = false →
  let subParse := λ p : list PathKey * ResourceSchema,
    parse filename root (chain ++ [getName s]) p.1 p.2 in
  ∃ resource,
    parse filename root chain pathKeys s
    = (resource :: flat_map (λ p, (subParse p).1) (subParsers pathKeys s),
       flat_map (λ p, (subParse p).2) (subParsers pathKeys s)) ∧
    resName resource = Join (chain ++ [getName s]) ".".
Proof.
  intros H subParse. subst subParse.
  destruct s as [name ns doc schema actionsSet simple collection].
  unfold subParsers. simpl in *. rewrite H. clear H.
  destruct simple as [[supports actions subs]|];
    destruct collection as [[ident csupports finders cactions eactions csubs]|];
    simpl; eexists.
  all: rewrite ?parseEach_fst, ?parseEach_snd, ?flat_map_app, ?flat_map_fmap, ?app_nil_r.
  all: by split.
Qed.

Lemma flat_map_filter_nil {A B} (f : A → list B) (P : A → Prop)
    `{!∀ x, Decision (P x)} (l : list A) :
  (∀ x, x ∈ l → ¬ P x → f x = []) → flat_map f l = flat_map f (filter P l).
Proof.
  induction l as [|x l IH]; intros Hnil; [done|]. simpl.
  rewrite IH by (intros y Hy; apply Hnil; by right).
  destruct (decide (P x)).
  - by rewrite filter_cons_True.
  - rewrite filter_cons_False by done. rewrite (Hnil x); [done|left|done].
Qed.

(** C4. A resource whose collection identifier has parameters is not
    parsed: its parser returns no resource, for it or for anything below it,
    and logs one line that names the resource. The parser of its parent goes
    on: it returns the resource of the parent and, in their order, what the
    parsers of the sub-resources without such a key return, and its log
    holds the line of the skipped one. *)
Theorem parse_skips_complex_key
    (filename root : string) (chain : list string) (pathKeys : list PathKey)
    (s : ResourceSchema) :
  hasComplexKey s = true →
  parse filename root chain pathKeys s
  = ([], [skipMessage (chain ++ [getName s])]) ∧
  ∀ parent pchain ppks pks,
    hasComplexKey parent = false →
    (pks, s) ∈ subParsers ppks parent →
    let chain' := pchain ++ [getName parent] in
    let result := parse filename root pchain ppks parent in
    (∃ resource,
       resName resource = Join chain' "." ∧
       result.1
       = resource ::
         flat_map (λ p, (parse filename root chain' p.1 p.2).1)
           (filter (λ p, hasComplexKey p.2 = false) (subParsers ppks parent))) ∧
    skipMessage (chain' ++ [getName s]) ∈ result.2.
Proof.
  intros Hs. split; [by apply parse_complex_key|].
  intros parent pchain ppks pks Hparent Hin chain' result. subst chain' result.
  destruct (parse_supported filename root pchain ppks parent Hparent)
    as (resource & -> & Hname). simpl. split.
  - exists resource. split; [done|]. f_equal.
    apply flat_map_filter_nil. intros [pks' sub] _ Hsub. simpl in *.
    rewrite parse_complex_key; [done|]. by destruct (hasComplexKey sub).
  - apply list_elem_of_In, in_flat_map. exists (pks, s).
    split; [by apply list_elem_of_In|]. simpl.
    rewrite parse_complex_key by done. by left.
Qed.

Lemma parse_skips_complex_key_witness :
  let key := λ params, {| idName := "id"; idType := "long"; params := params |} in
  let profile := λ name,
    MkResourceSchema name "org.example" "" None None
      (Some (MkSimpleSchema ["get"] [] [])) None in
  let collection := λ name params subs,
    MkResourceSchema name "org.example" "" None None None
      (Some (MkCollectionSchema (key params) ["get"] [] [] [] subs)) in
  let teams := collection "teams" (Some "TeamKeyParams") [profile "lead"] in
  let orgs := collection "orgs" None [profile "about"; teams; profile "logo"] in
  let pks := [{| pkName := "id"; pkType := "long" |}] in
  hasComplexKey teams = true ∧
  hasComplexKey orgs = false ∧
  parse "orgs.restspec.json" "orgs" ["org.example"; "orgs"] pks teams
  = ([], ["Complex Key resources are not supported. Skipping "
          +:+ "[org.example, orgs, teams] and its children." +:+ Codefile.newline]) ∧
  resName <$> (parseRoot "orgs.restspec.json" orgs).1
  = ["org.example.orgs"; "org.example.orgs.about"; "org.example.orgs.logo"] ∧
  skipMessage ["org.example"; "orgs"; "teams"]
    ∈ (parse "orgs.restspec.json" "orgs" ["org.example"] [] orgs).2.
Proof.
  intros key profile collection teams orgs pks.
  destruct (parse_skips_complex_key "orgs.restspec.json" "orgs"
              ["org.example"; "orgs"] pks teams eq_refl) as [Hskip Hparent].
  destruct (Hparent orgs ["org.example"] [] pks eq_refl) as [_ Hlog].
  { right. left. }
  split; [reflexivity|]. split; [reflexivity|]. split; [exact Hskip|].
  split; [reflexivity|]. exact Hlog.
Defined.

End ResourceParserFacts.

(** ** More on the merge of the code files *)
Module MergeMore.
Import Strings Codefile StringsFacts CodefileFacts DeduplicateFacts.

Section Merge.
Context {Statement : Type}.
Variable Render : Statement → string + string.
Implicit Types (range : Range) (files out : list (CodeFile Statement)).

(** Files with different identifiers are consistent, whatever their code. *)
Lemma consistent_NoDup files :
  NoDup (Identifier <$> files) → consistent Render files.
Proof.
  intros Hnd i j f g Hij Hf Hg Hid. exfalso.
  assert (i = j); [|lia].
  apply (NoDup_lookup _ _ _ (Identifier f) Hnd); rewrite list_lookup_fmap.
  - by rewrite Hf.
  - rewrite Hg. simpl. congruence.
Qed.

Lemma firsts_lookup_NoDup files f :
  NoDup (Identifier <$> files) → f ∈ files →
  firsts files !! Identifier f = Some f.
Proof.
  intros Hnd [i Hi]%list_elem_of_lookup_1. apply firsts_lookup_Some.
  exists i. split; [done|]. split; [done|]. intros j g Hj Hid.
  assert (i = j); [|lia].
  apply (NoDup_lookup _ _ _ (Identifier f) Hnd); rewrite list_lookup_fmap.
  - by rewrite Hi.
  - rewrite Hj. simpl. congruence.
Qed.

Lemma output_NoDup range files : NoDup (output range files).
Proof.
  apply (NoDup_fmap_1 Identifier). rewrite output_identifiers.
  apply sort_Strings_NoDup, visit_NoDup.
Qed.

Lemma output_subseteq range files u : u ∈ output range files → u ∈ files.
Proof.
  intros [id (i & Hi & _)%firsts_lookup_Some]%output_elem_of.
  by apply list_elem_of_lookup_2 in Hi.
Qed.

Lemma output_Permutation range files :
  NoDup (Identifier <$> files) → output range files ≡ₚ files.
Proof.
  intros Hnd. apply NoDup_Permutation.
  - apply output_NoDup.
  - by apply (NoDup_fmap_1 Identifier).
  - intros u. split; [apply output_subseteq|].
    intros Hu. apply output_elem_of. exists (Identifier u).
    by apply firsts_lookup_NoDup.
Qed.

Lemma output_sorted range files :
  Sorted String.le (Identifier <$> output range files).
Proof. rewrite output_identifiers. apply Sorted_merge_sort, _. Qed.

(** Two lists of files of [out] with the same identifiers, one after the
    other, are the same list when no two files of [out] share one. *)
Lemma fmap_Identifier_inj out (l1 l2 : list (CodeFile Statement)) :
  NoDup (Identifier <$> out) →
  (∀ u, u ∈ l1 → u ∈ out) → (∀ u, u ∈ l2 → u ∈ out) →
  Identifier <$> l1 = Identifier <$> l2 → l1 = l2.
Proof.
  intros Hnd. revert l2. induction l1 as [|a l1 IH]; intros [|b l2] H1 H2 Heq;
    simplify_eq/=; [done|].
  f_equal.
  - assert (Ha : a ∈ out) by (apply H1; left).
    assert (Hb : b ∈ out) by (apply H2; left).
    apply list_elem_of_lookup_1 in Ha as [i Hi].
    apply list_elem_of_lookup_1 in Hb as [j Hj].
    assert (i = j); [|congruence].
    apply (NoDup_lookup _ _ _ (Identifier a) Hnd); rewrite list_lookup_fmap.
    + by rewrite Hi.
    + rewrite Hj. simpl. congruence.
  - apply IH; [| |done].
    + intros u Hu. apply H1. by right.
    + intros u Hu. apply H2. by right.
Qed.

(** The output of an output is that output. *)
Lemma output_output range range' files :
  output range' (output range files) = output range files.
Proof.
  pose proof (output_NoDup range files) as Hnd.
  assert (Hids : NoDup (Identifier <$> output range files)).
  { rewrite output_identifiers. apply sort_Strings_NoDup, visit_NoDup. }
  apply (fmap_Identifier_inj (output range files)); [done| |done|].
  - apply output_subseteq.
  - apply (Sorted_unique String.le).
    + apply output_sorted.
    + apply output_sorted.
    + by rewrite (output_Permutation range' (output range files)).
Qed.

(** X1. Files with different identifiers are never rendered: whatever
    [Render] does with their code, [DeduplicateFiles] returns them all, in
    the order of their identifiers. *)
Theorem DeduplicateFiles_distinct range files :
  NoDup (Identifier <$> files) →
  ∃ out, DeduplicateFiles Render range files = Return out ∧
         out ≡ₚ files ∧ Sorted String.le (Identifier <$> out).
Proof.
  intros Hnd. exists (output range files). split; [|split].
  - apply DeduplicateFiles_Return. split; [by apply consistent_NoDup|done].
  - by apply output_Permutation.
  - apply output_sorted.
Qed.

(** X2. Merging is idempotent: the list that [DeduplicateFiles] returns is
    returned unchanged when it is merged again, in whatever order the
    runtime visits the map the second time. *)
Theorem DeduplicateFiles_idempotent range range' files out :
  DeduplicateFiles Render range files = Return out →
  DeduplicateFiles Render range' out = Return out.
Proof.
  intros [_ ->]%DeduplicateFiles_Return. apply DeduplicateFiles_Return.
  split; [|by rewrite output_output].
  apply consistent_NoDup. rewrite output_identifiers.
  apply sort_Strings_NoDup, visit_NoDup.
Qed.

(** X3. The merge invents nothing and drops duplicates only: the list
    returned is made of files of the input, each at most as often as it
    occurs there, and has as many files as the input has different
    identifiers; it is as long as the input exactly when no identifier
    occurs twice. *)
Theorem DeduplicateFiles_length range files out :
  DeduplicateFiles Render range files = Return out →
  out ⊆+ files ∧
  length out = size (list_to_set (Identifier <$> files) : gset string) ∧
  (length out = length files ↔ NoDup (Identifier <$> files)).
Proof.
  intros [_ ->]%DeduplicateFiles_Return.
  assert (Hsub : output range files ⊆+ files).
  { apply NoDup_submseteq; [apply output_NoDup|]. intros u. apply output_subseteq. }
  assert (Hlen : length (output range files)
                 = size (list_to_set (Identifier <$> files) : gset string)).
  { rewrite <- (length_fmap Identifier).
    rewrite <- (size_list_to_set (C := gset string)).
    2:{ rewrite output_identifiers. apply sort_Strings_NoDup, visit_NoDup. }
    f_equal. apply set_eq. intros id.
    rewrite !elem_of_list_to_set, output_identifiers, sort_Strings_elem_of,
      visit_elem_of, firsts_lookup_is_Some, list_elem_of_fmap.
    split; intros (g & ? & ?); eauto. }
  split; [done|]. split; [done|]. split.
  - intros Heq. apply (NoDup_fmap_2_strong Identifier).
    + intros f g Hf Hg Hid.
      assert (Hperm : output range files ≡ₚ files)
        by (by apply submseteq_length_Permutation; [|rewrite Heq]).
      rewrite <- Hperm in Hf, Hg.
      apply list_elem_of_lookup_1 in Hf as [i Hi].
      apply list_elem_of_lookup_1 in Hg as [j Hj].
      assert (i = j); [|congruence].
      assert (Hids : NoDup (Identifier <$> output range files)).
      { rewrite output_identifiers. apply sort_Strings_NoDup, visit_NoDup. }
      apply (NoDup_lookup _ _ _ (Identifier f) Hids); rewrite list_lookup_fmap.
      * by rewrite Hi.
      * rewrite Hj. simpl. congruence.
    + assert (Hperm : output range files ≡ₚ files)
        by (by apply submseteq_length_Permutation; [|rewrite Heq]).
      rewrite <- Hperm. apply output_NoDup.
  - intros Hnd. by rewrite (output_Permutation range files Hnd).
Qed.

(** X4. The order of the input decides only which of several files with
    the same identifier and code is kept: when all files render and files of
    one identifier render to the same code, the merge of a rearranged input
    returns the same identifiers in the same places, each with a file of the
    same code. *)
Theorem DeduplicateFiles_permutation range range' files files' :
  files ≡ₚ files' →
  (∀ f g, f ∈ files → g ∈ files → Identifier f = Identifier g →
          sameCode Render f g) →
  ∃ out out',
    DeduplicateFiles Render range files = Return out ∧
    DeduplicateFiles Render range' files' = Return out' ∧
    Identifier <$> out = Identifier <$> out' ∧
    Forall2 (sameCode Render) out out'.
Proof.
  intros Hperm Hall.
  assert (Hcons : ∀ l, l ≡ₚ files → consistent Render l).
  { intros l Hl i j f g _ Hf%list_elem_of_lookup_2 Hg%list_elem_of_lookup_2.
    rewrite Hl in Hf, Hg. by apply Hall. }
  exists (output range files), (output range' files').
  split; [apply DeduplicateFiles_Return; split; [by apply Hcons|done]|].
  split; [apply DeduplicateFiles_Return; split; [by apply Hcons|done]|].
  assert (Hids : Identifier <$> output range files
                 = Identifier <$> output range' files').
  { apply (Sorted_unique String.le); [apply output_sorted..|].
    rewrite !output_identifiers.
    apply NoDup_Permutation; [apply sort_Strings_NoDup, visit_NoDup..|].
    intros id. rewrite !sort_Strings_elem_of, !visit_elem_of, !firsts_lookup_is_Some.
    split; intros (g & Hg & ?); exists g; (split; [|done]).
    - by rewrite <- Hperm.
    - by rewrite Hperm. }
  split; [done|].
  apply Forall2_same_length_lookup. split.
  - by rewrite <- (length_fmap Identifier), Hids, length_fmap.
  - intros i u u' Hu Hu'. apply Hall.
    + by apply list_elem_of_lookup_2, output_subseteq in Hu.
    + apply list_elem_of_lookup_2, output_subseteq in Hu'. by rewrite Hperm.
    + assert (Heq : (Identifier <$> output range files) !! i
                    = (Identifier <$> output range' files') !! i) by (by rewrite Hids).
      rewrite !list_lookup_fmap, Hu, Hu' in Heq. by simplify_eq/=.
Qed.

End Merge.

Lemma DeduplicateFiles_distinct_witness :
  let Render := λ _ : string, inr "cannot render" : string + string in
  let unit := λ path name,
    {| SourceFilename := "message.pdsc"; PackagePath := path;
       Filename := name; Code := "func(" |} in
  let files := [unit "generated/org/other" "Greeting";
                unit "generated/org/example" "Message"] in
  NoDup (Identifier <$> files) ∧
  DeduplicateFiles Render inMapOrder files
  = Return [unit "generated/org/example" "Message";
            unit "generated/org/other" "Greeting"] ∧
  ∃ out, DeduplicateFiles Render inMapOrder files = Return out ∧
         out ≡ₚ files ∧ Sorted String.le (Identifier <$> out).
Proof.
  intros Render unit files.
  assert (Hnd : NoDup (Identifier <$> files)).
  { refine (bool_decide_unpack _ _). vm_compute. exact I. }
  split; [exact Hnd|]. split; [vm_compute; reflexivity|].
  exact (DeduplicateFiles_distinct Render inMapOrder files Hnd).
Defined.

Lemma DeduplicateFiles_idempotent_witness :
  let Render := λ code : string, inl code : string + string in
  let unit := λ path name,
    {| SourceFilename := "message.pdsc"; PackagePath := path;
       Filename := name; Code := "type T struct{}" |} in
  let f := unit "generated/org/example" "Message" in
  let h := unit "generated/org/other" "Greeting" in
  DeduplicateFiles Render inMapOrder [h; f; h; f] = Return [f; h] ∧
  DeduplicateFiles Render inReverseOrder [f; h] = Return [f; h].
Proof.
  intros Render unit f h.
  assert (Hret : DeduplicateFiles Render inMapOrder [h; f; h; f] = Return [f; h])
    by (vm_compute; reflexivity).
  split; [exact Hret|].
  exact (DeduplicateFiles_idempotent Render inMapOrder inReverseOrder _ _ Hret).
Defined.

Lemma DeduplicateFiles_length_witness :
  let Render := λ code : string, inl code : string + string in
  let unit := λ path name,
    {| SourceFilename := "message.pdsc"; PackagePath := path;
       Filename := name; Code := "type T struct{}" |} in
  let f := unit "generated/org/example" "Message" in
  let h := unit "generated/org/other" "Greeting" in
  DeduplicateFiles Render inMapOrder [h; f; h; f] = Return [f; h] ∧
  [f; h] ⊆+ [h; f; h; f] ∧
  length [f; h] = size (list_to_set (Identifier <$> [h; f; h; f]) : gset string) ∧
  (length [f; h] = length [h; f; h; f] ↔ NoDup (Identifier <$> [h; f; h; f])).
Proof.
  intros Render unit f h.
  assert (Hret : DeduplicateFiles Render inMapOrder [h; f; h; f] = Return [f; h])
    by (vm_compute; reflexivity).
  split; [exact Hret|].
  exact (DeduplicateFiles_length Render inMapOrder _ _ Hret).
Defined.

Lemma DeduplicateFiles_permutation_witness :
  let Render := λ code : string, inl code : string + string in
  let unit := λ source path name,
    {| SourceFilename := source; PackagePath := path;
       Filename := name; Code := "type T struct{}" |} in
  let f := unit "a.pdsc" "generated/org/example" "Message" in
  let f' := unit "b.pdsc" "generated/org/example" "Message" in
  let h := unit "a.pdsc" "generated/org/other" "Greeting" in
  DeduplicateFiles Render inMapOrder [f; h; f'] = Return [f; h] ∧
  DeduplicateFiles Render inMapOrder [f'; f; h] = Return [f'; h] ∧
  ∃ out out',
    DeduplicateFiles Render inMapOrder [f; h; f'] = Return out ∧
    DeduplicateFiles Render inMapOrder [f'; f; h] = Return out' ∧
    Identifier <$> out = Identifier <$> out' ∧
    Forall2 (sameCode Render) out out'.
Proof.
  intros Render unit f f' h.
  split; [vm_compute; reflexivity|]. split; [vm_compute; reflexivity|].
  apply (DeduplicateFiles_permutation Render inMapOrder inMapOrder [f; h; f'] [f'; f; h]).
  - change [f'; f; h] with ([f'] ++ [f; h]). change [f; h; f'] with ([f; h] ++ [f']).
    apply Permutation_app_comm.
  - intros a b Ha Hb _. exists "type T struct{}".
    assert (Hcode : ∀ x, x ∈ [f; h; f'] → Render (Code x) = inl "type T struct{}").
    { intros x Hx. apply list_elem_of_In in Hx.
      destruct Hx as [<-|[<-|[<-|[]]]]; reflexivity. }
    split; by apply Hcode.
Defined.

End MergeMore.

(** ** More on identifiers and package paths *)
Module IdentifierMore.
Import Strings Regexp Identifier Segments StringsFacts RegexpFacts.

(** X5. The qualified class path names an identifier whose name has no dot:
    two such identifiers with the same class path are the same identifier. *)
Theorem GetQualifiedClasspath_inj (i j : Identifier) :
  Codefile.dotFree (Name i) → Codefile.dotFree (Name j) →
  GetQualifiedClasspath i = GetQualifiedClasspath j → i = j.
Proof.
  destruct i as [n ns], j as [n' ns']. unfold GetQualifiedClasspath. simpl.
  intros Hi Hj Heq.
  destruct (append_sep_inj "."%char ns n ns' n' Hi Hj Heq) as [Hns Hn].
  by rewrite Hns, Hn.
Qed.

Lemma GetQualifiedClasspath_inj_witness :
  let i := {| Name := "Message"; Namespace := "org.example" |} in
  let a := {| Name := "b.c"; Namespace := "a" |} in
  let b := {| Name := "c"; Namespace := "a.b" |} in
  Codefile.dotFree (Name i) ∧
  (GetQualifiedClasspath a = GetQualifiedClasspath b ∧ a ≠ b) ∧
  (GetQualifiedClasspath i = GetQualifiedClasspath i → i = i).
Proof.
  intros i a b. split; [reflexivity|]. split; [split; [reflexivity|discriminate]|].
  apply (GetQualifiedClasspath_inj i i); reflexivity.
Defined.

(** The first piece of a string is a prefix of it. *)
Lemma SplitOn_head_prefix isSep s piece pieces :
  SplitOn isSep s = piece :: pieces → ∃ t, s = piece +:+ t.
Proof.
  revert piece pieces. induction s as [|c s IH]; intros piece pieces; simpl.
  - intros [= <- <-]. by exists "".
  - destruct (isSep c).
    + intros [= <- <-]. by eexists.
    + destruct (SplitOn isSep s) as [|p ps] eqn:E.
      * intros [= <- <-]. by exists s.
      * intros [= <- <-]. destruct (IH p ps eq_refl) as [t ->]. by exists t.
Qed.

Lemma startsInternal_matchInternal s piece pieces :
  SplitOn isDelim s = piece :: pieces → startsInternal piece →
  is_Some (matchInternal s).
Proof.
  intros [t ->]%SplitOn_head_prefix [r Hr]. apply TrimPrefix_Some in Hr as ->.
  by eexists.
Qed.

Lemma afterEscaped_cons p ps :
  ¬ startsInternal p → afterEscaped ps → afterEscaped (p :: ps).
Proof.
  intros Hp Hps [|k] seg Hk Hseg; simplify_eq/=; [done|].
  destruct (Hps k seg Hk Hseg) as (k' & -> & Hk'). by exists (S k').
Qed.

Lemma afterEscaped_escaped_cons p ps :
  afterEscaped ps → afterEscaped ("_internal" :: p :: ps).
Proof.
  intros Hps [|[|k]] seg Hk Hseg; simplify_eq/=.
  - by destruct Hseg.
  - by exists 0.
  - destruct (Hps k seg Hk Hseg) as (k' & -> & Hk'). by exists (S (S k')).
Qed.

(** After the replacement, a segment that still starts with [internal]
    stands right after a segment [_internal], and it is never the second
    segment of the string. *)
Lemma replaceAll_afterEscaped steps src :
  String.length src ≤ steps →
  ∃ piece pieces,
    SplitOn isDelim (replaceAll steps src) = piece :: pieces ∧
    (∃ tl, SplitOn isDelim src = piece :: tl) ∧
    afterEscaped pieces.
Proof.
  revert src. induction steps as [|steps IH]; intros src Hlen.
  { destruct src; simpl in *; [|lia]. exists "", []. split; [done|].
    split; [by eexists|]. by intros k seg Hk. }
  simpl. destruct (namespaceEscape_matchAt src) as [m|] eqn:Hm.
  - pose proof (namespaceEscape_matchAt_length _ _ Hm) as Hl.
    apply namespaceEscape_matchAt_inv in Hm as (c & u & Hc & Hg1 & Hu & Hg2 & ->).
    destruct (IH (after m)) as (p & ps & Hr & _ & Hq); [lia|].
    assert (Hfree' : free isDelim "_internal") by done.
    assert (Hnot : ∀ t, ¬ startsInternal ("_internal" +:+ t)) by (by intros t []).
    unfold expand. rewrite Hg1.
    set (w' := "_internal") in *.
    rewrite !append_assoc, (append_cons c ""), append_empty_l.
    rewrite !(SplitOn_cons_delim c) by done.
    exists "". destruct Hg2 as [->|(d & Hd & ->)].
    + rewrite append_empty_l.
      rewrite (SplitOn_free_app _ _ _ _ _ Hfree' Hr).
      eexists. split; [done|]. split; [by eexists|].
      apply afterEscaped_cons; [apply Hnot|done].
    + rewrite (append_cons d ""), append_empty_l.
      rewrite (SplitOn_sep _ _ _ _ Hd), Hr, Hfree'.
      eexists. split; [done|]. split; [by eexists|].
      by apply afterEscaped_escaped_cons.
  - destruct src as [|c src'].
    { exists "", []. split; [done|]. split; [by eexists|]. by intros k seg Hk. }
    destruct (IH src') as (p & ps & Hr & [tl Hs] & Hq); [simpl in Hlen; lia|].
    simpl. rewrite Hr, Hs. destruct (isDelim c) eqn:Hc.
    + eexists _, _. split; [done|]. split; [by eexists|].
      apply afterEscaped_cons; [|done].
      intros Hp. destruct (startsInternal_matchInternal _ _ _ Hs Hp) as [r Hmi].
      simpl in Hm. rewrite Hc, Hmi in Hm. by destruct (matchOptDelim r).
    + eexists _, _. split; [done|]. split; [by eexists|done].
Qed.

(** X6. Without a prefix, a segment of the package path that still starts
    with [internal] stands right after a segment that is exactly
    [_internal]; so it is never the second segment of the path, and a path
    with no segment [_internal] has no segment after the first that starts
    with [internal]. *)
Theorem FqcpToPackagePath_internal_after_escaped (g : Globals) (fqcp : string) :
  PackagePrefix g = "" →
  ∃ first rest,
    SplitOn Filepath.isSlash (FqcpToPackagePath g fqcp) = first :: rest ∧
    afterEscaped rest ∧
    ("_internal" ∉ rest → ∀ segment, segment ∈ rest → ¬ startsInternal segment).
Proof.
  intros Hprefix. unfold FqcpToPackagePath. rewrite Hprefix. simpl.
  rewrite SplitOn_ReplaceByte. unfold namespaceEscape_ReplaceAllString.
  destruct (replaceAll_afterEscaped (String.length fqcp) fqcp)
    as (p & ps & Hsplit & _ & Hq); [done|].
  exists p, ps. split; [done|]. split; [done|].
  intros Hnone seg [k Hk]%list_elem_of_lookup_1 Hseg.
  destruct (Hq k seg Hk Hseg) as (k' & _ & Hk').
  apply Hnone. by apply list_elem_of_lookup_2 in Hk'.
Qed.

Lemma FqcpToPackagePath_internal_after_escaped_witness :
  let g := {| PackagePrefix := ""; IsCyclic := λ _, false |} in
  PackagePrefix g = "" ∧
  FqcpToPackagePath g "org.internal.internal.api.internalapi"
  = "org/_internal/internal/api/_internalapi" ∧
  ∃ first rest,
    SplitOn Filepath.isSlash
      (FqcpToPackagePath g "org.internal.internal.api.internalapi")
    = first :: rest ∧
    afterEscaped rest ∧
    ("_internal" ∉ rest → ∀ segment, segment ∈ rest → ¬ startsInternal segment).
Proof.
  intros g. split; [reflexivity|]. split; [vm_compute; reflexivity|].
  apply (FqcpToPackagePath_internal_after_escaped g). reflexivity.
Defined.

End IdentifierMore.

(** ** The names of identifiers and the field tags *)
Module NamingFacts.
Import Strings Naming StringsFacts.

Lemma N_of_ascii_inj a b : N_of_ascii a = N_of_ascii b → a = b.
Proof. intros H. by rewrite <- (ascii_N_embedding a), H, ascii_N_embedding. Qed.

Lemma N_of_ascii_lt c : (N_of_ascii c < 256)%N.
Proof. apply N_ascii_bounded. Qed.

Lemma isLower_spec c :
  isLower c = true ↔ (97 ≤ N_of_ascii c ≤ 122)%N.
Proof.
  unfold isLower. rewrite andb_true_iff, !bool_decide_eq_true. tauto.
Qed.

Lemma isUpper_spec c :
  isUpper c = true ↔ (65 ≤ N_of_ascii c ≤ 90)%N.
Proof.
  unfold isUpper. rewrite andb_true_iff, !bool_decide_eq_true. tauto.
Qed.

Lemma N_of_upper c :
  N_of_ascii (upper c)
  = if isLower c then (N_of_ascii c - 32)%N else N_of_ascii c.
Proof.
  unfold upper. destruct (isLower c) eqn:H; [|done].
  apply isLower_spec in H. apply N_ascii_embedding. lia.
Qed.

Lemma N_of_lower c :
  N_of_ascii (lower c)
  = if isUpper c then (N_of_ascii c + 32)%N else N_of_ascii c.
Proof.
  unfold lower. destruct (isUpper c) eqn:H; [|done].
  apply isUpper_spec in H. apply N_ascii_embedding. lia.
Qed.

Lemma isUpper_false_iff c : isUpper c = false ↔ ¬ (65 ≤ N_of_ascii c ≤ 90)%N.
Proof. rewrite <- isUpper_spec. by destruct (isUpper c). Qed.

Lemma isLower_false_iff c : isLower c = false ↔ ¬ (97 ≤ N_of_ascii c ≤ 122)%N.
Proof. rewrite <- isLower_spec. by destruct (isLower c). Qed.

(** Lowering undoes raising on a byte that is no upper-case letter. *)
Lemma lower_upper c : isUpper c = false → lower (upper c) = c.
Proof.
  intros Hu. apply N_of_ascii_inj. rewrite N_of_lower, N_of_upper.
  apply isUpper_false_iff in Hu.
  destruct (isLower c) eqn:Hl.
  - apply isLower_spec in Hl.
    assert (isUpper (upper c) = true) as ->; [|lia].
    apply isUpper_spec. rewrite N_of_upper.
    assert (isLower c = true) as -> by (by apply isLower_spec). lia.
  - assert (upper c = c) as -> by (unfold upper; by rewrite Hl).
    assert (isUpper c = false) as -> by (by apply isUpper_false_iff). done.
Qed.

Lemma upper_lower c : isLower c = false → upper (lower c) = c.
Proof.
  intros Hl. apply N_of_ascii_inj. rewrite N_of_upper, N_of_lower.
  apply isLower_false_iff in Hl.
  destruct (isUpper c) eqn:Hu.
  - apply isUpper_spec in Hu.
    assert (isLower (lower c) = true) as ->; [|lia].
    apply isLower_spec. rewrite N_of_lower.
    assert (isUpper c = true) as -> by (by apply isUpper_spec). lia.
  - assert (lower c = c) as -> by (unfold lower; by rewrite Hu).
    assert (isLower c = false) as -> by (by apply isLower_false_iff). done.
Qed.

Lemma isLower_upper c : isLower (upper c) = false.
Proof.
  apply isLower_false_iff. rewrite N_of_upper.
  destruct (isLower c) eqn:Hl.
  - apply isLower_spec in Hl. lia.
  - by apply isLower_false_iff.
Qed.

Lemma isASCII_upper c : isASCII c = true → isASCII (upper c) = true.
Proof.
  unfold isASCII. rewrite !bool_decide_eq_true, N_of_upper.
  destruct (isLower c); lia.
Qed.

Lemma isASCII_lower c : isASCII c = true → isASCII (lower c) = true.
Proof.
  unfold isASCII. rewrite !bool_decide_eq_true, N_of_lower.
  destruct (isUpper c) eqn:Hu; [|done]. apply isUpper_spec in Hu. lia.
Qed.

Lemma lower_idemp c : lower (lower c) = lower c.
Proof.
  apply N_of_ascii_inj. rewrite (N_of_lower (lower c)).
  assert (isUpper (lower c) = false) as ->; [|done].
  apply isUpper_false_iff. rewrite N_of_lower.
  destruct (isUpper c) eqn:Hu.
  - apply isUpper_spec in Hu. lia.
  - by apply isUpper_false_iff.
Qed.

Lemma lower_upper_lower c : lower (upper c) = lower c.
Proof.
  destruct (isUpper c) eqn:Hu.
  - assert (upper c = c) as ->; [|done]. unfold upper.
    assert (isLower c = false) as ->; [|done].
    apply isLower_false_iff. apply isUpper_spec in Hu. lia.
  - rewrite lower_upper by done. unfold lower. by rewrite Hu.
Qed.

Lemma upper_idemp c : upper (upper c) = upper c.
Proof. unfold upper at 1. by rewrite isLower_upper. Qed.

Section Names.
Variable upperInvalid lowerInvalid : ascii → string.

Lemma ExportedIdentifier_cons c rest :
  isASCII c = true →
  ExportedIdentifier upperInvalid (String c rest) = Return (String (upper c) rest).
Proof. intros Hc. simpl. unfold ToUpper1. by rewrite Hc. Qed.

Lemma PrivateIdentifier_cons c rest :
  isASCII c = true →
  PrivateIdentifier lowerInvalid (String c rest) = Return (String (lower c) rest).
Proof. intros Hc. simpl. unfold ToLower1. by rewrite Hc. Qed.

Lemma ReceiverName_cons c rest :
  isASCII c = true →
  ReceiverName lowerInvalid (String c rest) = Return (String (lower c) "").
Proof. intros Hc. unfold ReceiverName. by rewrite PrivateIdentifier_cons. Qed.

(** X7. On an identifier that starts with an ASCII byte,
    [ExportedIdentifier] and [PrivateIdentifier] change the case of the first
    byte and nothing else. [PrivateIdentifier] undoes [ExportedIdentifier]
    unless the identifier starts with an upper-case letter, and the other
    way round unless it starts with a lower-case letter; exporting twice is
    exporting once. On the empty identifier both panic. *)
Theorem ExportedIdentifier_PrivateIdentifier (c : ascii) (rest : string) :
  isASCII c = true →
  let identifier := String c rest in
  let exported := ExportedIdentifier upperInvalid in
  let private := PrivateIdentifier lowerInvalid in
  exported identifier = Return (String (upper c) rest) ∧
  private identifier = Return (String (lower c) rest) ∧
  (isUpper c = false → andThen (exported identifier) private = Return identifier) ∧
  (isLower c = false → andThen (private identifier) exported = Return identifier) ∧
  andThen (exported identifier) exported = exported identifier ∧
  exported "" = Panic sliceError ∧ private "" = Panic sliceError.
Proof.
  intros Hc identifier exported private.
  subst identifier exported private.
  rewrite ExportedIdentifier_cons, PrivateIdentifier_cons by done.
  unfold andThen.
  rewrite ExportedIdentifier_cons by (by apply isASCII_lower).
  rewrite ExportedIdentifier_cons by (by apply isASCII_upper).
  rewrite PrivateIdentifier_cons by (by apply isASCII_upper).
  split; [done|]. split; [done|].
  split; [by intros ->%lower_upper|].
  split; [by intros ->%upper_lower|].
  by rewrite upper_idemp.
Qed.

(** X8. The receiver of a type whose name starts with an ASCII byte is that
    byte in lower case, one byte long, and it is the same for the exported
    form of the name. An empty name makes [ReceiverName] panic. *)
Theorem ReceiverName_first_byte (c : ascii) (rest : string) :
  isASCII c = true →
  ReceiverName lowerInvalid (String c rest) = Return (String (lower c) "") ∧
  andThen (ExportedIdentifier upperInvalid (String c rest))
          (ReceiverName lowerInvalid)
  = ReceiverName lowerInvalid (String c rest) ∧
  andThen (ReceiverName lowerInvalid (String c rest))
          (ReceiverName lowerInvalid)
  = ReceiverName lowerInvalid (String c rest) ∧
  ReceiverName lowerInvalid "" = Panic sliceError.
Proof.
  intros Hc. rewrite ExportedIdentifier_cons, ReceiverName_cons by done.
  unfold andThen.
  rewrite ReceiverName_cons by (by apply isASCII_upper).
  rewrite ReceiverName_cons by (by apply isASCII_lower).
  by rewrite lower_upper_lower, lower_idemp.
Qed.

End Names.

Lemma ExportedIdentifier_PrivateIdentifier_witness :
  let invalid := λ _ : ascii, "?" in
  isASCII "m"%char = true ∧ isUpper "m"%char = false ∧
  ExportedIdentifier invalid "message" = Return "Message" ∧
  PrivateIdentifier invalid "Message" = Return "message" ∧
  andThen (ExportedIdentifier invalid "message") (PrivateIdentifier invalid)
  = Return "message" ∧
  andThen (ExportedIdentifier invalid "message") (ExportedIdentifier invalid)
  = ExportedIdentifier invalid "message".
Proof.
  intros invalid.
  destruct (ExportedIdentifier_PrivateIdentifier invalid invalid "m"%char "essage" eq_refl)
    as (_ & _ & Hback & _ & Hidem & _).
  split; [reflexivity|]. split; [reflexivity|]. split; [reflexivity|].
  split; [reflexivity|]. split; [exact (Hback eq_refl)|exact Hidem].
Defined.

Lemma ReceiverName_first_byte_witness :
  let invalid := λ _ : ascii, "?" in
  isASCII "M"%char = true ∧
  ReceiverName invalid "Message" = Return "m" ∧
  andThen (ExportedIdentifier invalid "Message") (ReceiverName invalid)
  = ReceiverName invalid "Message".
Proof.
  intros invalid.
  destruct (ReceiverName_first_byte invalid invalid "M"%char "essage" eq_refl)
    as (Hname & Hexp & _).
  split; [reflexivity|]. split; [exact Hname|exact Hexp].
Defined.

(** A name that ends in [,omitempty] has a comma. *)
Lemma commaFree_omitempty name : ¬ commaFree (name +:+ ",omitempty").
Proof.
  unfold commaFree, free.
  change (name +:+ ",omitempty") with (name +:+ String ","%char "omitempty").
  rewrite (SplitOn_sep _ name ","%char "omitempty" eq_refl).
  pose proof (SplitOn_nonempty (λ c, bool_decide (c = ","%char)) name).
  destruct (SplitOn _ name) as [|p [|q ps]]; [done| |]; simpl; by intros [=].
Qed.

(** X9. A field tag has the key [json] and no other, and none at all when
    the name is empty, optional or not. For names without a comma the tags
    tell the field tags apart: two of them with the same tags have the same
    name and the same optionality. *)
Theorem ToMap_json (f : FieldTag) :
  (ToMap f = ∅ ↔ JsonName f = "") ∧
  (∀ key value, ToMap f !! key = Some value →
     key = "json" ∧
     value = JsonName f +:+ (if JsonOptional f then ",omitempty" else "")) ∧
  (∀ g, JsonName f ≠ "" → JsonName g ≠ "" →
        commaFree (JsonName f) → commaFree (JsonName g) →
        ToMap f = ToMap g → f = g).
Proof.
  assert (Hmap : ∀ h, JsonName h ≠ "" →
            ToMap h = {[ "json" := JsonName h +:+
                                   (if JsonOptional h then ",omitempty" else "") ]}).
  { intros h Hh. unfold ToMap. rewrite decide_True by done.
    destruct (JsonOptional h).
    - rewrite lookup_insert_eq. simpl. by rewrite insert_insert_eq.
    - by rewrite append_empty_r. }
  split; [|split].
  - split.
    + intros Hempty. destruct (decide (JsonName f = "")) as [|Hne]; [done|].
      rewrite (Hmap f Hne) in Hempty. by apply (map_non_empty_singleton (M := gmap string)) in Hempty.
    + intros Hname. unfold ToMap. by rewrite decide_False by (by intros ?).
  - intros key value. destruct (decide (JsonName f = "")) as [Hname|Hne].
    + unfold ToMap. rewrite decide_False by (by intros ?). by rewrite lookup_empty.
    + rewrite (Hmap f Hne). by intros [-> ->]%lookup_singleton_Some.
  - intros g Hf Hg Hcf Hcg. rewrite (Hmap f Hf), (Hmap g Hg).
    intros Hmaps. pose proof (f_equal (λ m : gmap string string, m !! "json") Hmaps) as Heq.
    simpl in Heq. rewrite !lookup_singleton_eq in Heq. injection Heq as Heq. clear Hmaps.
    destruct f as [n o], g as [n' o']. simpl in *.
    destruct o, o'.
    + destruct (append_sep_inj ","%char n "omitempty" n' "omitempty") as [-> _]; done.
    + rewrite append_empty_r in Heq. subst n'. by apply commaFree_omitempty in Hcg.
    + rewrite append_empty_r in Heq. subst n. by apply commaFree_omitempty in Hcf.
    + rewrite !append_empty_r in Heq. by subst.
Qed.

Lemma ToMap_json_witness :
  let f := {| JsonName := "id"; JsonOptional := true |} in
  let dropped := {| JsonName := ""; JsonOptional := true |} in
  let comma := {| JsonName := "id,omitempty"; JsonOptional := false |} in
  ToMap f !! "json" = Some "id,omitempty" ∧
  ToMap dropped = ∅ ∧
  (ToMap comma = ToMap f ∧ comma ≠ f) ∧
  (ToMap f = ToMap f → f = f).
Proof.
  intros f dropped comma.
  destruct (ToMap_json f) as (_ & _ & Hinj).
  split; [reflexivity|]. split; [reflexivity|].
  split; [split; [reflexivity|discriminate]|].
  apply (Hinj f); [discriminate|discriminate|reflexivity|reflexivity].
Defined.

End NamingFacts.

(** ** The sets of identifiers *)
Module IdentifierSetFacts.
Import Strings Identifier IdentifierSet StringsFacts.

Lemma visit_elem_of_keys (range : Range) (set : IdentifierSet) id :
  id ∈ visit range set ↔ is_Some (set !! id).
Proof.
  rewrite (visit_keys range set), list_elem_of_fmap. split.
  - intros ([k v] & -> & Hkv%elem_of_map_to_list). by eexists.
  - intros [v Hv]. exists (id, v). split; [done|]. by apply elem_of_map_to_list.
Qed.

Lemma foldl_insert_true_lookup (ids : list Identifier) (set : IdentifierSet) id :
  foldl (λ set id, <[id := true]> set) set ids !! id
  = if decide (id ∈ ids) then Some true else set !! id.
Proof.
  revert set. induction ids as [|x ids IH]; intros set.
  - destruct (decide (id ∈ [])) as [Hin|_]; [|done]. by apply elem_of_nil in Hin.
  - change (foldl (λ set id, <[id := true]> set) set (x :: ids))
      with (foldl (λ set id, <[id := true]> set) (<[x := true]> set) ids).
    rewrite IH. destruct (decide (id ∈ ids)) as [Hin|Hnin].
    + destruct (decide (id ∈ x :: ids)) as [_|Hn]; [done|]. destruct Hn. by right.
    + destruct (decide (x = id)) as [->|Hne].
      * rewrite lookup_insert_eq.
        destruct (decide (id ∈ id :: ids)) as [_|Hn]; [done|]. destruct Hn. left.
      * rewrite lookup_insert_ne by done.
        destruct (decide (id ∈ x :: ids)) as [[?|?]%elem_of_cons|_]; congruence.
Qed.

Lemma AddAll_lookup (range : Range) (set other : IdentifierSet) id :
  AddAll range set other !! id
  = if decide (is_Some (other !! id)) then Some true else set !! id.
Proof.
  unfold AddAll. rewrite foldl_insert_true_lookup.
  destruct (decide (id ∈ visit range other)) as [Hin|Hnin].
  - destruct (decide (is_Some (other !! id))) as [_|Hn]; [done|].
    destruct Hn. by apply visit_elem_of_keys in Hin.
  - destruct (decide (is_Some (other !! id))) as [Hs|_]; [|done].
    destruct Hnin. by apply visit_elem_of_keys.
Qed.

(** X10. [AddAll] makes a member of every key of the other set, also of a
    key that the other set maps to [false] while [Get] answers [false] for
    it there; the members of the set stay, no key gets the value [false], and
    the order in which the runtime visits the other set does not matter. *)
Theorem AddAll_Get (range range' : Range) (set other : IdentifierSet)
    (id : Identifier) :
  Get (AddAll range set other) id
  = Get set id || bool_decide (is_Some (other !! id)) ∧
  (allTrue set → allTrue (AddAll range set other)) ∧
  AddAll range set other = AddAll range' set other.
Proof.
  split; [|split].
  - unfold Get. rewrite AddAll_lookup.
    destruct (decide (is_Some (other !! id))) as [Hin|Hnin].
    + rewrite bool_decide_eq_true_2 by done. by rewrite orb_true_r.
    + rewrite bool_decide_eq_false_2 by done. by rewrite orb_false_r.
  - intros Hset k b. rewrite AddAll_lookup. case_decide; [congruence|]. apply Hset.
  - apply map_eq. intros k. by rewrite !AddAll_lookup.
Qed.

(** The class paths that [String] collects. *)
Lemma foldl_snoc_fmap {A B} (f : A → B) (l : list A) (acc : list B) :
  foldl (λ classes s, classes ++ [f s]) acc l = acc ++ (f <$> l).
Proof.
  revert acc. induction l as [|x l IH]; intros acc; simpl.
  - by rewrite app_nil_r.
  - by rewrite IH, <- (assoc_L (++)).
Qed.

(** X11. [String] does not depend on the order in which the runtime visits
    the set: it writes the class paths of all keys of the set in increasing
    byte order, separated by a comma and a blank, between braces. *)
Theorem String_sorted (range range' : Range) (set : IdentifierSet) :
  String_ range set = String_ range' set ∧
  ∃ classes,
    String_ range set = "{" +:+ Join classes ", " +:+ "}" ∧
    Sorted String.le classes ∧
    classes ≡ₚ GetQualifiedClasspath <$> (map_to_list set).*1.
Proof.
  assert (Hsorted : ∀ r : Range,
    Sorted String.le (Codefile.sort_Strings (GetQualifiedClasspath <$> visit r set)) ∧
    Codefile.sort_Strings (GetQualifiedClasspath <$> visit r set)
      ≡ₚ GetQualifiedClasspath <$> (map_to_list set).*1).
  { intros r. unfold Codefile.sort_Strings. split; [apply Sorted_merge_sort, _|].
    by rewrite merge_sort_Permutation, (visit_keys r set). }
  unfold String_. rewrite !foldl_snoc_fmap, !app_nil_l. split.
  - do 2 f_equal. f_equal. apply (Sorted_unique String.le).
    + apply Hsorted.
    + apply Hsorted.
    + by rewrite (proj2 (Hsorted range)), (proj2 (Hsorted range')).
  - eexists. split; [done|]. apply Hsorted.
Qed.

End IdentifierSetFacts.

(** ** The primitives that were decoded *)
Module PrimitiveFacts.
Import Strings Primitive PrimitiveMethods Naming IdentifierFacts.



End PrimitiveFacts.

(** ** What the reader of JSON files returns *)
Module ReadJSONMore.
Import Strings Codefile StringsFacts ReadJSONFacts.

Lemma list_ascii_of_string_app (a b : string) :
  list_ascii_of_string (a +:+ b) = list_ascii_of_string a ++ list_ascii_of_string b.
Proof. induction a as [|c a IH]; [done|]. rewrite append_cons. simpl. by rewrite IH. Qed.

Lemma At_app_length (a : string) c (b : string) :
  At (a +:+ String c b) (String.length a) = Some c.
Proof. induction a as [|x a IH]; [done|]. rewrite append_cons. simpl. apply IH. Qed.

Lemma At_None s i : String.length s ≤ i → At s i = None.
Proof.
  revert i. induction s as [|c s IH]; intros [|i] H; simpl in *; try done; try lia.
  apply IH. lia.
Qed.

Section Loop.
Variable Unmarshal : string → option error.
Variable filename : string.

(** The data that go into the next turn are the data of this turn with
    some bytes left out. *)
Lemma iterate_Continue_sublist data data' :
  iterate Unmarshal filename data = Continue data' →
  list_ascii_of_string data' `sublist_of` list_ascii_of_string data.
Proof.
  intros (b & c & a & -> & -> & _)%(iterate_Continue Unmarshal filename).
  rewrite !list_ascii_of_string_app.
  apply sublist_app; [done|]. by apply sublist_inserts_l.
Qed.

(** What the loop returns comes from a turn on the data it returns. *)
Lemma readLoop_Return turns data0 data err :
  readLoop Unmarshal turns filename data0 = Some (Return (data, err)) →
  iterate Unmarshal filename data = Returns err ∧
  list_ascii_of_string data `sublist_of` list_ascii_of_string data0.
Proof.
  revert data0. induction turns as [|turns IH]; intros data0; simpl; [done|].
  destruct (iterate Unmarshal filename data0) as [e|data'|] eqn:Hit.
  - intros; simplify_eq. done.
  - intros [Hret Hsub]%IH. split; [done|].
    etrans; [exact Hsub|]. by apply iterate_Continue_sublist.
  - done.
Qed.

(** The error of a turn that returns, against what the decoder said. *)
Lemma iterate_Returns_Unmarshal data err :
  iterate Unmarshal filename data = Returns err →
  Unmarshal data = err ∨
  ∃ Offset msg, Unmarshal data = Some (SyntaxError Offset msg) ∧
                err = Some (MalformedPdscFileError filename Offset msg) ∧
                index data (Offset - 1) = Some "/"%char.
Proof.
  unfold iterate.
  destruct (Unmarshal data) as [[Offset msg|name o msg|msg]|];
    [|intros; simplify_eq; by left..].
  case_decide; [intros; simplify_eq; by left|].
  destruct (index data (Offset - 1)) as [c|] eqn:Hc; [|done].
  case_decide; [subst c|intros; simplify_eq; by left].
  destruct (index data (Offset - 1 + 1)) as [c1|]; [|done].
  repeat case_decide; repeat case_match; intros; simplify_eq; right; eauto.
Qed.

End Loop.

(** X13. What [ReadJSONFromFile] returns for a file it could read. The data
    it ends with are the bytes of the file with some left out, none added or
    moved. The error is that of the decoder on these data, or the
    malformed-file error made of its syntax error at a slash, so the error is
    [nil] exactly when the decoder accepts these data. A file the decoder
    accepts as it is, is not touched. *)
Theorem ReadJSONFromFile_returns
    (ReadFile : string → string + string) (Unmarshal : string → option error)
    (filename file data : string) (err : option error) :
  ReadFile filename = inl file →
  ReadJSONFromFile ReadFile Unmarshal filename = Some (Return (data, err)) →
  list_ascii_of_string data `sublist_of` list_ascii_of_string file ∧
  (Unmarshal data = err ∨
   ∃ Offset msg, Unmarshal data = Some (SyntaxError Offset msg) ∧
                 err = Some (MalformedPdscFileError filename Offset msg) ∧
                 index data (Offset - 1) = Some "/"%char) ∧
  (err = None ↔ Unmarshal data = None) ∧
  (Unmarshal file = None → data = file).
Proof.
  unfold ReadJSONFromFile. intros -> Hloop.
  pose proof (readLoop_Return Unmarshal filename _ _ _ _ Hloop) as [Hret Hsub].
  pose proof (iterate_Returns_Unmarshal Unmarshal filename _ _ Hret) as Herr.
  split; [done|]. split; [done|]. split.
  - destruct Herr as [<-|(Offset & msg & -> & -> & _)]; [done|]. by split.
  - intros Hfile. simpl in Hloop. unfold iterate in Hloop.
    rewrite Hfile in Hloop. by simplify_eq.
Qed.

Lemma ReadJSONFromFile_returns_witness :
  let file := "{} // the empty record" +:+ newline in
  let ReadFile := λ name : string,
    if decide (name = "empty.pdsc") then inl file
    else inr "open: no such file or directory" in
  let Unmarshal := λ data : string,
    if decide (data = "{} ") then None
    else Some (SyntaxError 4 "invalid character '/' after top-level value") in
  ReadJSONFromFile ReadFile Unmarshal "empty.pdsc" = Some (Return ("{} ", None)) ∧
  list_ascii_of_string "{} " `sublist_of` list_ascii_of_string file ∧
  Unmarshal "{} " = None.
Proof.
  intros file ReadFile Unmarshal.
  assert (Hret : ReadJSONFromFile ReadFile Unmarshal "empty.pdsc"
                 = Some (Return ("{} ", None))) by (vm_compute; reflexivity).
  destruct (ReadJSONFromFile_returns ReadFile Unmarshal "empty.pdsc" file "{} " None
              eq_refl Hret) as (Hsub & _ & Herr & _).
  split; [exact Hret|]. split; [exact Hsub|]. by apply Herr.
Defined.

(** X14. A file that ends in a slash at which the decoder reports its syntax
    error (the offset of the error is the length of the file) makes
    [ReadJSONFromFile] panic: it reads the byte after the slash without a
    look at the length of the data. *)
Theorem ReadJSONFromFile_trailing_slash
    (ReadFile : string → string + string) (Unmarshal : string → option error)
    (filename before msg : string) :
  ReadFile filename = inl (before +:+ "/") →
  Unmarshal (before +:+ "/")
  = Some (SyntaxError (Z.of_nat (String.length (before +:+ "/"))) msg) →
  ReadJSONFromFile ReadFile Unmarshal filename
  = Some (Panic "runtime error: index out of range").
Proof.
  intros Hfile Hdec. unfold ReadJSONFromFile. rewrite Hfile.
  cut (iterate Unmarshal filename (before +:+ "/") = IndexOutOfRange).
  { intros Hit. simpl. by rewrite Hit. }
  unfold iterate. rewrite Hdec. rewrite append_length. simpl String.length.
  rewrite decide_False by lia.
  replace (Z.of_nat (String.length before + 1) - 1)%Z
    with (Z.of_nat (String.length before)) by lia.
  unfold index. rewrite !decide_False by lia.
  rewrite Nat2Z.id. rewrite (At_app_length before "/"%char "").
  rewrite decide_True by done.
  rewrite At_None; [done|]. rewrite append_length. simpl. lia.
Qed.

Lemma ReadJSONFromFile_trailing_slash_witness :
  let ReadFile := λ name : string, inl "{} /" : string + string in
  let Unmarshal := λ data : string,
    Some (SyntaxError 4 "invalid character '/' after top-level value") in
  ReadFile "empty.pdsc" = inl ("{} " +:+ "/") ∧
  ReadJSONFromFile ReadFile Unmarshal "empty.pdsc"
  = Some (Panic "runtime error: index out of range").
Proof.
  intros ReadFile Unmarshal. split; [reflexivity|].
  apply (ReadJSONFromFile_trailing_slash ReadFile Unmarshal "empty.pdsc" "{} "
           "invalid character '/' after top-level value"); reflexivity.
Defined.

End ReadJSONMore.

(** ** Identifiers of code files and the aggregate imports *)
Module ImportsMore.
Import Strings Codefile StringsFacts CodefileFacts DeduplicateFacts.

Section Imports.
Context {Statement : Type}.
Variable Render : Statement → string + string.
Implicit Types (range : Range) (files out : list (CodeFile Statement)).

(** X15. The identifier of a code file names its package path and its file
    name as long as file names have no dot: two such files with the same
    identifier have the same path and the same name. A dot in a file name
    breaks this: the file [n.m] of the package [p] and the file [m] of the
    package [p.n] have one identifier. *)
Theorem Identifier_names_path_and_file (f g : CodeFile Statement) :
  dotFree (Filename f) → dotFree (Filename g) →
  (Identifier f = Identifier g ↔
   PackagePath f = PackagePath g ∧ Filename f = Filename g) ∧
  ∀ p n m : string,
    Identifier {| SourceFilename := SourceFilename f; PackagePath := p;
                  Filename := n +:+ "." +:+ m; Code := Code f |}
    = Identifier {| SourceFilename := SourceFilename g;
                    PackagePath := p +:+ "." +:+ n;
                    Filename := m; Code := Code g |}.
Proof.
  intros Hf Hg. split.
  - split; [by apply (append_sep_inj "."%char)|].
    unfold Identifier. by intros [-> ->].
  - intros p n m. unfold Identifier. simpl. by rewrite !append_assoc.
Qed.

Lemma foldl_Anon (ks : list string) (f : File) :
  foldl (λ f p, Anon p f) f ks
  = {| FileName := FileName f; Anons := list_to_set ks ∪ Anons f; Decls := Decls f |}.
Proof.
  revert f. induction ks as [|k ks IH]; intros f; simpl.
  - destruct f as [name anons decls]. simpl. f_equal.
    symmetry. apply (left_id_L ∅ (∪)).
  - rewrite IH. simpl. f_equal. apply set_eq. intros x.
    rewrite !elem_of_union, elem_of_singleton. tauto.
Qed.

(** The aggregate file is made from the set of the package paths alone. *)
Lemma GenerateAllImportsFile_ext range range' prefix outputDir files files' :
  (∀ p, (∃ code, code ∈ files ∧ PackagePath code = p) ↔
        (∃ code, code ∈ files' ∧ PackagePath code = p)) →
  GenerateAllImportsFile range prefix outputDir files
  = GenerateAllImportsFile range' prefix outputDir files'.
Proof.
  intros Hpaths. unfold GenerateAllImportsFile. f_equal.
  rewrite !foldl_Anon. unfold AddFunc. simpl. f_equal.
  apply set_eq. intros p.
  rewrite !elem_of_union, !elem_of_list_to_set, !visit_elem_of, !imports_lookup.
  rewrite !lookup_empty. specialize (Hpaths p).
  assert (Hnone : ¬ is_Some (@None bool)) by (by intros [? ?]).
  tauto.
Qed.

(** X16. The aggregate imports file does not change when the code files are
    deduplicated first, as long as file names have no dot: every package
    path keeps a file. Nor does it depend on the order in which the runtime
    visits the map of imports. *)
Theorem GenerateAllImportsFile_of_deduplicated
    range range1 range2 (prefix outputDir : string) files out :
  Forall (λ f, dotFree (Filename f)) files →
  DeduplicateFiles Render range files = Return out →
  GenerateAllImportsFile range1 prefix outputDir out
  = GenerateAllImportsFile range2 prefix outputDir files.
Proof.
  intros Hdot [_ ->]%DeduplicateFiles_Return.
  rewrite Forall_forall in Hdot.
  assert (Hsub : ∀ u, u ∈ output range files → u ∈ files).
  { intros u [id (i & Hi & _)%firsts_lookup_Some]%output_elem_of.
    by apply list_elem_of_lookup_2 in Hi. }
  apply GenerateAllImportsFile_ext. intros p. split.
  - intros (u & Hu & <-). exists u. split; [by apply Hsub|done].
  - intros (f & Hf & <-).
    destruct (proj2 (firsts_lookup_is_Some files (Identifier f))) as [u Hu]; [eauto|].
    assert (Hout : u ∈ output range files) by (apply output_elem_of; eauto).
    exists u. split; [done|].
    apply firsts_lookup_Some in Hu as (_ & _ & Hid & _).
    apply (append_sep_inj "."%char) in Hid as [Hpath _]; [done|..].
    + by apply Hdot, Hsub.
    + by apply Hdot.
Qed.

End Imports.

Lemma Identifier_names_path_and_file_witness :
  let unit := λ source path name,
    {| SourceFilename := source; PackagePath := path; Filename := name;
       Code := tt |} in
  let f := unit "a.pdsc" "generated/org/example" "Message" in
  let g := unit "b.pdsc" "generated/org/example" "Message" in
  (dotFree (Filename f) ∧ dotFree (Filename g)) ∧
  (Identifier f = Identifier g ↔
   PackagePath f = PackagePath g ∧ Filename f = Filename g) ∧
  Identifier (unit "a.pdsc" "org" "example.Message")
  = Identifier (unit "b.pdsc" "org.example" "Message").
Proof.
  intros unit f g.
  destruct (Identifier_names_path_and_file f g) as [Hiff Hdot]; [reflexivity..|].
  split; [by split|]. split; [exact Hiff|]. exact (Hdot "org" "example" "Message").
Defined.

Lemma GenerateAllImportsFile_of_deduplicated_witness :
  let Render := λ code : string, inl code : string + string in
  let unit := λ path name code,
    {| SourceFilename := "message.pdsc"; PackagePath := path;
       Filename := name; Code := code |} in
  let f := unit "generated/org/example" "Message" "type Message struct{}" in
  let h := unit "generated/org/other" "Greeting" "type Greeting struct{}" in
  DeduplicateFiles Render inMapOrder [h; f; f] = Return [f; h] ∧
  GenerateAllImportsFile inMapOrder "generated" "out" [f; h]
  = GenerateAllImportsFile inReverseOrder "generated" "out" [h; f; f].
Proof.
  intros Render unit f h.
  assert (Hret : DeduplicateFiles Render inMapOrder [h; f; f] = Return [f; h])
    by (vm_compute; reflexivity).
  split; [exact Hret|].
  apply (GenerateAllImportsFile_of_deduplicated Render inMapOrder inMapOrder
           inReverseOrder "generated" "out" [h; f; f] [f; h]); [|exact Hret].
  repeat constructor.
Defined.

End ImportsMore.

(** ** The walk of the resource parser *)
Module ResourceTreeFacts.
Import Strings ResourceParser ResourceTree StringsFacts ResourceParserFacts.

Lemma sum_list_with_fmap {A B} (f : B → nat) (g : A → B) (l : list A) :
  sum_list_with f (g <$> l) = sum_list_with (λ x, f (g x)) l.
Proof. induction l as [|x l IH]; [done|]. csimpl. by rewrite IH. Qed.

Lemma forallb_fmap {A B} (f : B → bool) (g : A → B) (l : list A) :
  forallb f (g <$> l) = forallb (λ x, f (g x)) l.
Proof. induction l as [|x l IH]; [done|]. csimpl. by rewrite IH. Qed.

Lemma nodes_subParsers pathKeys s :
  nodes s = S (sum_list_with (λ p, nodes p.2) (subParsers pathKeys s)).
Proof.
  destruct s as [name ns doc schema actionsSet simple collection].
  unfold subParsers.
  destruct simple as [[supports actions subs]|];
    destruct collection as [[ident csupports finders cactions eactions csubs]|];
    simpl; by rewrite ?sum_list_with_app, ?sum_list_with_fmap, ?Nat.add_0_r.
Qed.

Lemma complexFree_subParsers pathKeys s :
  complexFree s
  = negb (hasComplexKey s) && forallb (λ p, complexFree p.2) (subParsers pathKeys s).
Proof.
  destruct s as [name ns doc schema actionsSet simple collection].
  unfold subParsers.
  destruct simple as [[supports actions subs]|];
    destruct collection as [[ident csupports finders cactions eactions csubs]|];
    simpl; rewrite ?forallb_app, ?forallb_fmap, ?andb_true_r; simpl;
    by rewrite ?andb_assoc.
Qed.

Lemma subParsers_nodes pathKeys s p :
  p ∈ subParsers pathKeys s → nodes p.2 < nodes s.
Proof.
  intros Hp. rewrite (nodes_subParsers pathKeys s).
  pose proof (sum_list_with_in p (λ p, nodes p.2) _ Hp). simpl in *. lia.
Qed.

(** The parsers of the sub-resources are given the path keys of the parent,
    or these and one more. *)
Lemma subParsers_prefix pathKeys s p :
  p ∈ subParsers pathKeys s → pathKeys `prefix_of` p.1.
Proof.
  unfold subParsers. intros [Hp|Hp]%elem_of_app.
  - destruct (getSimple s); [|by apply elem_of_nil in Hp].
    apply list_elem_of_fmap in Hp as (sub & -> & _). done.
  - destruct (getCollection s); [|by apply elem_of_nil in Hp].
    apply list_elem_of_fmap in Hp as (sub & -> & _). by apply prefix_app_r.
Qed.

(** The resource a parser makes for a schema that is not skipped. *)
Lemma parse_supported_resource filename root chain pathKeys s :
  hasComplexKey s = false →
  ∃ resource,
    (parse filename root chain pathKeys s).1
    = resource ::
      flat_map (λ p, (parse filename root (chain ++ [getName s]) p.1 p.2).1)
        (subParsers pathKeys s) ∧
    (parse filename root chain pathKeys s).2
    = flat_map (λ p, (parse filename root (chain ++ [getName s]) p.1 p.2).2)
        (subParsers pathKeys s) ∧
    resName resource = Join (chain ++ [getName s]) "." ∧
    resFilename resource = filename ∧
    resRoot resource = root ∧
    Forall (λ m, methodPathKeys m = pathKeys) (resMethods resource).
Proof.
  intros H.
  destruct s as [name ns doc schema actionsSet simple collection].
  unfold subParsers. simpl in *. rewrite H. clear H.
  assert (Hact : ∀ actions onEntity,
    Forall (λ m, methodPathKeys m = pathKeys)
      ((λ a, ActionMethod pathKeys a onEntity) <$> actions)).
  { intros actions onEntity. by apply Forall_fmap, Forall_true. }
  assert (Hrest : ∀ supports,
    Forall (λ m, methodPathKeys m = pathKeys) (RestMethod pathKeys <$> supports)).
  { intros supports. by apply Forall_fmap, Forall_true. }
  assert (Hfind : ∀ finders,
    Forall (λ m, methodPathKeys m = pathKeys) (FinderMethod pathKeys <$> finders)).
  { intros finders. by apply Forall_fmap, Forall_true. }
  destruct actionsSet as [actions0|];
    destruct simple as [[supports actions subs]|];
    destruct collection as [[ident csupports finders cactions eactions csubs]|];
    simpl; eexists.
  all: rewrite ?parseEach_fst, ?parseEach_snd, ?flat_map_app, ?flat_map_fmap, ?app_nil_r.
  all: split; [reflexivity|]; split; [reflexivity|]; simpl.
  all: repeat split; rewrite ?Forall_app; repeat split; auto.
Qed.

Lemma elem_of_flat_map {A B} (f : A → list B) (l : list A) y :
  y ∈ flat_map f l ↔ ∃ x, x ∈ l ∧ y ∈ f x.
Proof.
  rewrite list_elem_of_In, in_flat_map.
  split; intros (x & Hx & Hy); exists x; by rewrite ?list_elem_of_In in *.
Qed.

(** The resources and the log lines of a parser, by the size of the
    schema. *)
Lemma parse_below n filename root :
  ∀ s chain pathKeys, nodes s ≤ n →
    let result := parse filename root chain pathKeys s in
    (∀ resource, resource ∈ result.1 →
       resFilename resource = filename ∧ resRoot resource = root ∧
       (∃ names, resName resource = Join (chain ++ getName s :: names) ".") ∧
       Forall (λ m, pathKeys `prefix_of` methodPathKeys m) (resMethods resource)) ∧
    (∀ line, line ∈ result.2 →
       ∃ names, line = skipMessage (chain ++ getName s :: names)).
Proof.
  induction n as [|n IH]; intros s chain pathKeys Hn result; subst result.
  { rewrite (nodes_subParsers pathKeys s) in Hn. lia. }
  destruct (hasComplexKey s) eqn:Hkey.
  { rewrite parse_complex_key by done. simpl. split.
    - intros resource Hr. by apply elem_of_nil in Hr.
    - intros line ->%list_elem_of_singleton. by exists []. }
  destruct (parse_supported_resource filename root chain pathKeys s Hkey)
    as (resource & -> & -> & Hname & Hfile & Hroot & Hkeys).
  assert (Hsub : ∀ p, p ∈ subParsers pathKeys s → nodes p.2 ≤ n).
  { intros p Hp%subParsers_nodes. lia. }
  split.
  - intros r [->|(p & Hp & Hr)%elem_of_flat_map]%elem_of_cons.
    + split; [done|]. split; [done|]. split; [by exists []|].
      eapply Forall_impl; [exact Hkeys|]. by intros m ->.
    + destruct (IH p.2 (chain ++ [getName s]) p.1 (Hsub p Hp)) as [Hres _].
      destruct (Hres r Hr) as (? & ? & [names Hnames] & Hpks).
      split; [done|]. split; [done|]. split.
      * exists (getName p.2 :: names). by rewrite <- (assoc_L (++)) in Hnames.
      * eapply Forall_impl; [exact Hpks|]. intros m Hm.
        etrans; [|exact Hm]. by apply (subParsers_prefix pathKeys s).
  - intros line (p & Hp & Hl)%elem_of_flat_map.
    destruct (IH p.2 (chain ++ [getName s]) p.1 (Hsub p Hp)) as [_ Hlog].
    destruct (Hlog line Hl) as [names ->].
    exists (getName p.2 :: names). by rewrite <- (assoc_L (++)).
Qed.


Lemma length_flat_map_sum {A B} (f : A → list B) (l : list A) :
  length (flat_map f l) = sum_list_with (λ x, length (f x)) l.
Proof. induction l as [|x l IH]; [done|]. simpl. by rewrite length_app, IH. Qed.

Lemma flat_map_nil_iff {A B} (f : A → list B) (l : list A) :
  flat_map f l = [] ↔ ∀ x, x ∈ l → f x = [].
Proof.
  induction l as [|x l IH]; simpl.
  - split; [|done]. intros _ x Hx. by apply elem_of_nil in Hx.
  - split.
    + intros [Hx Hl]%app_eq_nil y [->|Hy]%elem_of_cons; [done|]. by apply IH.
    + intros H. rewrite (H x) by left. simpl. apply IH. intros y Hy. apply H. by right.
Qed.

Lemma sum_list_with_le {A} (f g : A → nat) (l : list A) :
  (∀ x, x ∈ l → f x ≤ g x) → sum_list_with f l ≤ sum_list_with g l.
Proof.
  induction l as [|x l IH]; intros H; simpl; [done|].
  pose proof (H x ltac:(left)). specialize (IH (λ y Hy, H y ltac:(by right))). lia.
Qed.

Lemma sum_list_with_ext_in {A} (f g : A → nat) (l : list A) :
  (∀ x, x ∈ l → f x = g x) → sum_list_with f l = sum_list_with g l.
Proof.
  induction l as [|x l IH]; intros H; simpl; [done|].
  rewrite (H x) by left. rewrite IH; [done|]. intros y Hy. apply H. by right.
Qed.

Lemma parse_count n filename root :
  ∀ s chain pathKeys, nodes s ≤ n →
    let result := parse filename root chain pathKeys s in
    (result.2 = [] ↔ complexFree s = true) ∧
    length result.1 ≤ nodes s ∧
    (complexFree s = true → length result.1 = nodes s).
Proof.
  induction n as [|n IH]; intros s chain pathKeys Hn result; subst result.
  { rewrite (nodes_subParsers pathKeys s) in Hn. lia. }
  rewrite (complexFree_subParsers pathKeys s).
  destruct (hasComplexKey s) eqn:Hkey.
  { rewrite parse_complex_key by done. simpl. split; [done|]. split; [lia|done]. }
  destruct (parse_supported_resource filename root chain pathKeys s Hkey)
    as (resource & -> & -> & _).
  assert (Hsub : ∀ p, p ∈ subParsers pathKeys s → nodes p.2 ≤ n).
  { intros p Hp%subParsers_nodes. lia. }
  simpl negb. rewrite andb_true_l, forallb_forall.
  rewrite (nodes_subParsers pathKeys s). simpl length.
  rewrite length_flat_map_sum, flat_map_nil_iff.
  split; [|split].
  - split.
    + intros H p Hp%list_elem_of_In.
      apply (IH p.2 (chain ++ [getName s]) p.1 (Hsub p Hp)). by apply H.
    + intros H p Hp.
      apply (IH p.2 (chain ++ [getName s]) p.1 (Hsub p Hp)).
      by apply H, list_elem_of_In.
  - apply le_n_S, sum_list_with_le. intros p Hp.
    apply (IH p.2 (chain ++ [getName s]) p.1 (Hsub p Hp)).
  - intros H. f_equal. apply sum_list_with_ext_in. intros p Hp.
    apply (IH p.2 (chain ++ [getName s]) p.1 (Hsub p Hp)).
    by apply H, list_elem_of_In.
Qed.

(** X18. The parser logs nothing exactly when no resource of the schema, at
    any depth, has a complex key, and it then makes one resource for every
    resource of the schema; with a complex key somewhere it makes fewer or as
    many, never more. *)
Theorem parse_logs_nothing
    (filename root : string) (chain : list string) (pathKeys : list PathKey)
    (s : ResourceSchema) :
  ((parse filename root chain pathKeys s).2 = [] ↔ complexFree s = true) ∧
  length (parse filename root chain pathKeys s).1 ≤ nodes s ∧
  (complexFree s = true → length (parse filename root chain pathKeys s).1 = nodes s).
Proof. apply (parse_count (nodes s)). done. Qed.

End ResourceTreeFacts.

(** ** The package path, segment by segment *)
Module SegmentsFacts.
Import Strings Regexp Identifier Segments StringsFacts RegexpFacts.

Lemma matchInternal_app u t :
  u = "" ∨ u = "_" → matchInternal (u +:+ "internal" +:+ t) = Some t.
Proof. intros [->| ->]; unfold matchInternal; simpl; by rewrite ?TrimPrefix_app. Qed.

Lemma matchInternal_append s t r :
  matchInternal s = Some t → matchInternal (s +:+ r) = Some (t +:+ r).
Proof.
  intros (u & Hu & ->)%matchInternal_inv.
  rewrite !append_assoc. by apply matchInternal_app.
Qed.

(** No match at a string, no match at its first segment. *)
Lemma matchInternal_None_head s piece pieces :
  SplitOn isDelim s = piece :: pieces → matchInternal s = None →
  matchInternal piece = None.
Proof.
  intros [t ->]%IdentifierMore.SplitOn_head_prefix Hnone.
  destruct (matchInternal piece) as [r|] eqn:Hp; [|done].
  by rewrite (matchInternal_append _ _ t Hp) in Hnone.
Qed.

(** The text after a match that took no delimiter does not start with
    one. *)
Lemma matchOptDelim_none s rest :
  matchOptDelim s = ("", rest) →
  rest = s ∧ ∀ piece pieces, SplitOn isDelim s = piece :: pieces →
                             piece = "" → pieces = [].
Proof.
  unfold matchOptDelim. destruct s as [|d s']; [intros [= <-]|].
  - split; [done|]. by intros piece pieces [= <- <-].
  - destruct (isDelim d) eqn:Hd; [done|]. intros [= <-]. split; [done|].
    intros piece pieces. simpl. rewrite Hd.
    by destruct (SplitOn isDelim s'); intros [= <- <-].
Qed.

Lemma escapeSegments_taken piece pieces :
  escapeSegments true (piece :: pieces) = piece :: escapeSegments false pieces.
Proof. reflexivity. Qed.

Lemma escapeSegments_match piece t pieces :
  matchInternal piece = Some t →
  escapeSegments false (piece :: pieces)
  = ("_internal" +:+ t) :: escapeSegments (bool_decide (t = "")) pieces.
Proof. intros H. simpl. by rewrite H. Qed.

Lemma escapeSegments_no_match piece pieces :
  matchInternal piece = None →
  escapeSegments false (piece :: pieces) = piece :: escapeSegments false pieces.
Proof. intros H. simpl. by rewrite H. Qed.

(** The replacement keeps the first segment and rewrites the others as
    [escapeSegments] says. *)
Lemma replaceAll_escapeSegments steps src :
  String.length src ≤ steps →
  ∃ piece pieces,
    SplitOn isDelim src = piece :: pieces ∧
    SplitOn isDelim (replaceAll steps src) = piece :: escapeSegments false pieces.
Proof.
  revert src. induction steps as [|steps IH]; intros src Hlen.
  { destruct src; simpl in *; [|lia]. by exists "", []. }
  simpl. destruct (namespaceEscape_matchAt src) as [m|] eqn:Hm.
  - pose proof (namespaceEscape_matchAt_length _ _ Hm) as Hl.
    assert (Hopt : group2 m = "" →
      ∀ piece pieces, SplitOn isDelim (after m) = piece :: pieces →
                      piece = "" → pieces = []).
    { revert Hm. unfold namespaceEscape_matchAt. destruct src as [|c s1]; [done|].
      destruct (isDelim c); [|done]. destruct (matchInternal s1) as [s2|]; [|done].
      destruct (matchOptDelim s2) as [g2 rest] eqn:Ho. intros [= <-]. simpl.
      intros ->. by apply matchOptDelim_none in Ho as [-> Ho]. }
    apply namespaceEscape_matchAt_inv in Hm as (c & u & Hc & Hg1 & Hu & Hg2 & ->).
    destruct (IH (after m)) as (p & ps & Hs & Hr); [lia|].
    pose proof (free_internal u Hu) as Hfree.
    pose proof (matchInternal_app u) as Happ.
    assert (Hfree' : free isDelim "_internal") by done.
    unfold expand. rewrite Hg1.
    set (w' := "_internal") in *. set (w := "internal") in *.
    rewrite !append_assoc, (append_cons c ""), append_empty_l.
    rewrite !(SplitOn_cons_delim c) by done.
    rewrite <- !(append_assoc u w), <- !(append_assoc w').
    exists "". destruct Hg2 as [Hg2|(d & Hd & Hg2)]; rewrite Hg2 in *.
    + rewrite append_empty_l, append_empty_r.
      rewrite (SplitOn_free_app _ _ _ _ _ Hfree Hs).
      rewrite (SplitOn_free_app _ _ _ _ _ Hfree' Hr).
      eexists. split; [done|]. do 2 f_equal.
      rewrite (escapeSegments_match _ p); [|rewrite append_assoc; by apply Happ].
      f_equal. case_bool_decide as Hp; [|done].
      by rewrite (Hopt eq_refl p ps Hs Hp).
    + rewrite (append_assoc w'), !(append_cons d ""), !append_empty_l.
      rewrite !(SplitOn_sep _ _ _ _ Hd), Hs, Hr, Hfree, Hfree'.
      eexists. split; [done|]. simpl app. do 2 f_equal.
      rewrite (escapeSegments_match _ ""); [|].
      * by rewrite bool_decide_eq_true_2.
      * specialize (Happ "" Hu). by rewrite append_empty_r in Happ.
  - destruct src as [|c src']; [by exists "", []|].
    destruct (IH src') as (p & ps & Hs & Hr); [simpl in Hlen; lia|].
    simpl. rewrite Hs, Hr. destruct (isDelim c) eqn:Hc.
    + eexists _, _. split; [done|]. f_equal.
      rewrite escapeSegments_no_match; [done|].
      apply (matchInternal_None_head src' p ps Hs).
      simpl in Hm. rewrite Hc in Hm.
      destruct (matchInternal src') as [r|]; [|done]. by destruct (matchOptDelim r).
    + by eexists _, _.
Qed.

(** Replacing the dots does not change the segments. *)
Lemma SplitOn_isDelim_ReplaceByte s :
  SplitOn isDelim (ReplaceByte "."%char "/"%char s) = SplitOn isDelim s.
Proof.
  induction s as [|c s IH]; simpl; [done|]. rewrite IH.
  destruct (decide (c = "."%char)) as [->|Hdot]; done.
Qed.

Lemma ReplaceByte_Join_SplitOn s :
  ReplaceByte "."%char "/"%char s = Join (SplitOn isDelim s) "/".
Proof.
  rewrite <- SplitOn_ReplaceByte. symmetry. apply (Join_SplitOn "/"%char).
Qed.

Lemma FqcpToPackagePath_no_prefix g fqcp :
  PackagePrefix g = "" →
  FqcpToPackagePath g fqcp
  = ReplaceByte "."%char "/"%char (namespaceEscape_ReplaceAllString fqcp).
Proof. intros H. unfold FqcpToPackagePath. by rewrite H. Qed.

Lemma FqcpToPackagePath_SplitOn g fqcp :
  PackagePrefix g = "" →
  ∃ first rest,
    SplitOn isDelim fqcp = first :: rest ∧
    SplitOn isDelim (FqcpToPackagePath g fqcp) = first :: escapeSegments false rest.
Proof.
  intros Hg. rewrite FqcpToPackagePath_no_prefix by done.
  rewrite SplitOn_isDelim_ReplaceByte.
  by apply replaceAll_escapeSegments.
Qed.

Lemma ReplaceByte_idemp s :
  ReplaceByte "."%char "/"%char (ReplaceByte "."%char "/"%char s)
  = ReplaceByte "."%char "/"%char s.
Proof.
  induction s as [|c s IH]; simpl; [done|]. rewrite IH. f_equal.
  destruct (decide (c = "."%char)) as [->|Hdot]; [done|]. by rewrite decide_False.
Qed.

Lemma ReplaceByte_dotFree s : Codefile.dotFree (ReplaceByte "."%char "/"%char s).
Proof.
  unfold Codefile.dotFree, free. induction s as [|c s IH]; simpl; [done|].
  rewrite IH. destruct (decide (c = "."%char)) as [->|Hdot]; [done|].
  by rewrite bool_decide_eq_false_2.
Qed.

(** The package path is the join of its segments. *)
Lemma FqcpToPackagePath_Join g fqcp :
  PackagePrefix g = "" →
  FqcpToPackagePath g fqcp = Join (SplitOn isDelim (FqcpToPackagePath g fqcp)) "/".
Proof.
  intros Hg. rewrite <- ReplaceByte_Join_SplitOn.
  rewrite FqcpToPackagePath_no_prefix by done. by rewrite ReplaceByte_idemp.
Qed.

Lemma escapeSegments_idemp taken segments :
  escapeSegments taken (escapeSegments taken segments)
  = escapeSegments taken segments.
Proof.
  revert taken. induction segments as [|x l IH]; intros taken; [done|].
  destruct taken.
  - rewrite !escapeSegments_taken. by rewrite IH.
  - destruct (matchInternal x) as [t|] eqn:Hx.
    + rewrite (escapeSegments_match x t) by done.
      rewrite (escapeSegments_match _ t); [by rewrite IH|].
      apply (matchInternal_app "_" t). by right.
    + rewrite (escapeSegments_no_match x) by done.
      rewrite (escapeSegments_no_match x) by done. by rewrite IH.
Qed.

Lemma escapeSegments_plain segments :
  Forall (λ segment, matchInternal segment = None) segments →
  escapeSegments false segments = segments.
Proof.
  induction 1 as [|x l Hx Hl IH]; [done|].
  rewrite escapeSegments_no_match by done. by rewrite IH.
Qed.

(** X19. Without a prefix, [FqcpToPackagePath] is the class path cut at its
    dots and slashes, with the first segment kept, the others rewritten as
    [escapeSegments] says, and all joined by slashes; no dot is left in
    it. *)
Theorem FqcpToPackagePath_segments (g : Globals) (fqcp : string) :
  PackagePrefix g = "" →
  (∃ first rest,
     SplitOn isDelim fqcp = first :: rest ∧
     FqcpToPackagePath g fqcp = Join (first :: escapeSegments false rest) "/") ∧
  Codefile.dotFree (FqcpToPackagePath g fqcp).
Proof.
  intros Hg. split.
  - destruct (FqcpToPackagePath_SplitOn g fqcp Hg) as (p & ps & Hs & Hr).
    exists p, ps. split; [done|]. rewrite <- Hr. by apply FqcpToPackagePath_Join.
  - rewrite FqcpToPackagePath_no_prefix by done. apply ReplaceByte_dotFree.
Qed.

Lemma FqcpToPackagePath_segments_witness :
  let g := {| PackagePrefix := ""; IsCyclic := λ _, false |} in
  let fqcp := "org.internal._internal.api/internalapi.internal" in
  SplitOn isDelim fqcp = ["org"; "internal"; "_internal"; "api"; "internalapi"; "internal"] ∧
  escapeSegments false ["internal"; "_internal"; "api"; "internalapi"; "internal"]
  = ["_internal"; "_internal"; "api"; "_internalapi"; "_internal"] ∧
  FqcpToPackagePath g fqcp = "org/_internal/_internal/api/_internalapi/_internal" ∧
  (∃ first rest,
     SplitOn isDelim fqcp = first :: rest ∧
     FqcpToPackagePath g fqcp = Join (first :: escapeSegments false rest) "/") ∧
  Codefile.dotFree (FqcpToPackagePath g fqcp).
Proof.
  intros g fqcp. split; [reflexivity|]. split; [vm_compute; reflexivity|].
  split; [vm_compute; reflexivity|].
  apply (FqcpToPackagePath_segments g fqcp). reflexivity.
Defined.

(** X20. Without a prefix, [FqcpToPackagePath] does nothing to a path it has
    made: the second call returns what it is given. *)
Theorem FqcpToPackagePath_idempotent (g : Globals) (fqcp : string) :
  PackagePrefix g = "" →
  FqcpToPackagePath g (FqcpToPackagePath g fqcp) = FqcpToPackagePath g fqcp.
Proof.
  intros Hg.
  transitivity (Join (SplitOn isDelim (FqcpToPackagePath g (FqcpToPackagePath g fqcp))) "/");
    [by apply FqcpToPackagePath_Join|].
  transitivity (Join (SplitOn isDelim (FqcpToPackagePath g fqcp)) "/");
    [|symmetry; by apply FqcpToPackagePath_Join].
  f_equal.
  destruct (FqcpToPackagePath_SplitOn g fqcp Hg) as (p & ps & _ & Hr).
  destruct (FqcpToPackagePath_SplitOn g (FqcpToPackagePath g fqcp) Hg)
    as (p' & ps' & Hs' & Hr').
  rewrite Hr in Hs'. injection Hs' as <- <-.
  by rewrite Hr', Hr, escapeSegments_idemp.
Qed.

Lemma FqcpToPackagePath_idempotent_witness :
  let g := {| PackagePrefix := ""; IsCyclic := λ _, false |} in
  FqcpToPackagePath g "org.internal.internal.api" = "org/_internal/internal/api" ∧
  FqcpToPackagePath g "org/_internal/internal/api" = "org/_internal/internal/api" ∧
  FqcpToPackagePath g (FqcpToPackagePath g "org.internal.internal.api")
  = FqcpToPackagePath g "org.internal.internal.api".
Proof.
  intros g. split; [vm_compute; reflexivity|]. split; [vm_compute; reflexivity|].
  apply (FqcpToPackagePath_idempotent g). reflexivity.
Defined.

(** X21. Without a prefix, a class path in which no segment after the first
    starts with [internal] or [_internal] only has its dots replaced by
    slashes. *)
Theorem FqcpToPackagePath_plain (g : Globals) (fqcp first : string)
    (rest : list string) :
  PackagePrefix g = "" →
  SplitOn isDelim fqcp = first :: rest →
  Forall (λ segment, matchInternal segment = None) rest →
  FqcpToPackagePath g fqcp = ReplaceByte "."%char "/"%char fqcp.
Proof.
  intros Hg Hsplit Hplain.
  rewrite (FqcpToPackagePath_Join g fqcp) by done.
  destruct (FqcpToPackagePath_SplitOn g fqcp Hg) as (p & ps & Hs & ->).
  rewrite Hsplit in Hs. injection Hs as <- <-.
  rewrite escapeSegments_plain by done.
  by rewrite <- Hsplit, ReplaceByte_Join_SplitOn.
Qed.

Lemma FqcpToPackagePath_plain_witness :
  let g := {| PackagePrefix := ""; IsCyclic := λ _, false |} in
  SplitOn isDelim "internal.com.linkedin.restli" = ["internal"; "com"; "linkedin"; "restli"] ∧
  FqcpToPackagePath g "internal.com.linkedin.restli" = "internal/com/linkedin/restli".
Proof.
  intros g. split; [reflexivity|].
  apply (FqcpToPackagePath_plain g "internal.com.linkedin.restli" "internal"
           ["com"; "linkedin"; "restli"]); [reflexivity..|].
  repeat constructor.
Defined.

End SegmentsFacts.
